(** * liftBigWig: the overlap-repair sweep and the conversion driver

    A shallow embedding of [liftBigWig.py].  The definitions follow the
    source top-down:

    - [Text]: the string builtins the script relies on ([str.strip],
      [str.split], [int], [str] of an integer, [str.capitalize]);
    - [Repair]: the loop of [adjust_overlaps], once over parsed intervals
      (the sweep with its cursor) and once over the raw lines of the file;
    - [Driver]: [download_resources], [adjust_overlaps], [print_progress]
      and [convert_bigwig] as programs over the actions they perform
      (sub-processes, file reads and writes, console output), run against
      an outside world that answers each action.

    The facts come after: [TextFacts] (reading back what [str] and the
    f-string wrote), [RepairFacts] (the sweep over intervals), [LineFacts]
    (the loop over lines) and [DriverFacts] (runs of the driver); then
    [SweepFacts] (what the sweep keeps: coverage, order, its fixed points),
    [LoopFacts] (what the loop writes and when it fails) and
    [PipelineFacts] (the loops of the driver, the files and processes it
    touches, the order of the pipeline and when it completes).

    Characters are Rocq's [ascii], read as code points 0..255; text with
    larger code points is outside the model. *)

From Stdlib Require Import ZArith Lia Ascii.
From stdpp Require Import base list strings sorting gmap.

Local Open Scope Z_scope.

(** ** Exceptions *)

(** The [ValueError]s of the script: two come from the interpreter (tuple
    unpacking, [int]), the others are raised by [convert_bigwig] with the
    message given. *)
Inductive value_error :=
  | Unpack (expected got : nat)
  | InvalidLiteral (token : string)
  | Message (msg : string).

Inductive exn :=
  | ValueError (why : value_error)
  | IndexError
  | FileNotFoundError (name : string)
  | OSError (detail : string).

Global Instance value_error_eq_dec : EqDecision value_error.
Proof. solve_decision. Defined.

Global Instance exn_eq_dec : EqDecision exn.
Proof. solve_decision. Defined.

(** ** String builtins *)

Module Text.

Definition tab : string := String "009"%char "".
Definition newline : string := String "010"%char "".

(** [str.isspace] on one character, for code points below 256: TAB, LF, VT,
    FF, CR, FS, GS, RS, US, SPACE, NEL and NBSP. *)
Definition is_space (c : ascii) : bool :=
  match c with
  | "009" | "010" | "011" | "012" | "013"
  | "028" | "029" | "030" | "031" | " " | "133" | "160" => true
  | _ => false
  end%char.

Global Arguments is_space : simpl never.

Definition is_empty (s : string) : bool :=
  match s with "" => true | String _ _ => false end.

(** No character of [s] is white space. *)
Fixpoint no_space (s : string) : bool :=
  match s with
  | "" => true
  | String c s' => negb (is_space c) && no_space s'
  end.

Fixpoint lstrip (s : string) : string :=
  match s with
  | "" => ""
  | String c s' => if is_space c then lstrip s' else s
  end.

Fixpoint rstrip (s : string) : string :=
  match s with
  | "" => ""
  | String c s' =>
      let r := rstrip s' in
      if is_space c && is_empty r then "" else String c r
  end.

(** [s.strip()] *)
Definition strip (s : string) : string := rstrip (lstrip s).

(** The scan of [s.split()]: [cur] is the token read so far. *)
Fixpoint split_go (s : string) (cur : string) : list string :=
  match s with
  | "" => if is_empty cur then [] else [cur]
  | String c s' =>
      if is_space c
      then (if is_empty cur then split_go s' "" else cur :: split_go s' "")
      else split_go s' (cur +:+ String c "")
  end.

(** [s.split()]: the maximal runs of characters that are not white space. *)
Definition split (s : string) : list string := split_go s "".

(** The value of a decimal digit: the code points 48 to 57. *)
Definition digit_value (c : ascii) : option Z :=
  let n := Z.of_N (N_of_ascii c) in
  if (48 <=? n) && (n <=? 57) then Some (n - 48) else None.

(** The digits of an integer literal after the first: digits, with single
    underscores allowed between two digits.  [us] tells that the previous
    character was an underscore. *)
Fixpoint digitpart (acc : Z) (us : bool) (s : string) : option Z :=
  match s with
  | "" => if us then None else Some acc
  | String c s' =>
      if bool_decide (c = "_"%char)
      then (if us then None else digitpart acc true s')
      else match digit_value c with
           | Some d => digitpart (10 * acc + d) false s'
           | None => None
           end
  end.

Definition unsigned (s : string) : option Z :=
  match s with
  | "" => None
  | String c s' =>
      match digit_value c with
      | Some d => digitpart d false s'
      | None => None
      end
  end.

(** [int(s)] in base 10: surrounding white space is ignored, then an optional
    sign and the digits.  [None] stands for the [ValueError].  The cap on
    the number of digits of recent interpreters is not modelled. *)
Definition int (s : string) : option Z :=
  match strip s with
  | String "-"%char s' => Z.opp <$> unsigned s'
  | String "+"%char s' => unsigned s'
  | s' => unsigned s'
  end.

Definition to_upper (c : ascii) : ascii :=
  let n := N_of_ascii c in
  if ((97 <=? n) && (n <=? 122))%N then ascii_of_N (n - 32) else c.

Definition to_lower (c : ascii) : ascii :=
  let n := N_of_ascii c in
  if ((65 <=? n) && (n <=? 90))%N then ascii_of_N (n + 32) else c.

Fixpoint lower (s : string) : string :=
  match s with
  | "" => ""
  | String c s' => String (to_lower c) (lower s')
  end.

(** [s.capitalize()], on the letters of ASCII: the driver applies it to an
    assembly identifier it has checked to be ["hg19"] or ["hg38"]. *)
Definition capitalize (s : string) : string :=
  match s with
  | "" => ""
  | String c s' => String (to_upper c) (lower s')
  end.

Definition digit_char (d : Z) : ascii := ascii_of_N (48 + Z.to_N d).

(** The decimal digits of [n >= 0] put in front of [acc]; [fuel] bounds the
    number of digits. *)
Fixpoint decimal_go (fuel : nat) (n : Z) (acc : string) : string :=
  let acc' := String (digit_char (n `mod` 10)) acc in
  match fuel with
  | O => acc'
  | S fuel' => if n <? 10 then acc' else decimal_go fuel' (n `div` 10) acc'
  end.

Definition decimal (n : Z) : string :=
  decimal_go (Z.to_nat (Z.log2 n)) n "".

(** [str(n)] of an integer, as the f-string formats it. *)
Definition str (n : Z) : string :=
  if n <? 0 then "-" +:+ decimal (- n) else decimal n.

(** A field: not empty and free of white space. *)
Definition field (t : string) : Prop :=
  is_empty t = false ∧ no_space t = true.

(** The fuel that [decimal_go] needs for [n]. *)
Definition enough (fuel : nat) (n : Z) : Prop :=
  0 ≤ n < 2 ^ Z.of_nat fuel * 10.

End Text.

(** ** The repair sweep of [adjust_overlaps] *)

Module Repair.

(** One bedGraph record: the four whitespace-separated fields of a line, the
    coordinates already converted with [int], the value kept as the token. *)
Record interval := Interval {
  chrom : string;
  start : Z;
  end_ : Z;
  value : string
}.

(** The two locals [current_chrom] (initially [None]) and [current_end]. *)
Record cursor := Cursor {
  current_chrom : option string;
  current_end : Z
}.

Definition initial : cursor := Cursor None 0.

Global Instance interval_eq_dec : EqDecision interval.
Proof. solve_decision. Defined.

Global Instance cursor_eq_dec : EqDecision cursor.
Proof. solve_decision. Defined.

(** Lines 35-37: [if chrom != current_chrom: current_chrom = chrom;
    current_end = 0]. *)
Definition reset (cur : cursor) (c : string) : cursor :=
  if bool_decide (Some c ≠ current_chrom cur) then Cursor (Some c) 0 else cur.

(** Lines 39-41: [if start < current_end: start = current_end]. *)
Definition clip (cur : cursor) (s : Z) : Z :=
  if s <? current_end cur then current_end cur else s.

(** Lines 35-45, the body of the loop once the line is parsed: the new
    cursor and the record written, if any. *)
Definition body (cur : cursor) (iv : interval) : cursor * option interval :=
  let cur1 := reset cur (chrom iv) in
  let start1 := clip cur1 (start iv) in
  if start1 <? end_ iv
  then (Cursor (current_chrom cur1) (end_ iv),
        Some (Interval (chrom iv) start1 (end_ iv) (value iv)))
  else (cur1, None).

(** The loop over a sequence of parsed records, from a given cursor. *)
Fixpoint sweep (cur : cursor) (ivs : list interval) : list interval :=
  match ivs with
  | [] => []
  | iv :: rest =>
      match body cur iv with
      | (cur', Some out) => out :: sweep cur' rest
      | (cur', None) => sweep cur' rest
      end
  end.

(** The Interval Repair Engine: the sweep from the initial cursor. *)
Definition repair (ivs : list interval) : list interval := sweep initial ivs.

(** Lines 32-33: [chrom, start, end, value = line.strip().split()] and the
    two [int] conversions, left to right. *)
Definition parse_line (line : string) : exn + interval :=
  match Text.split (Text.strip line) with
  | [c; s; e; v] =>
      match Text.int s with
      | None => inl (ValueError (InvalidLiteral s))
      | Some s' =>
          match Text.int e with
          | None => inl (ValueError (InvalidLiteral e))
          | Some e' => inr (Interval c s' e' v)
          end
      end
  | fields => inl (ValueError (Unpack 4 (length fields)))
  end.

(** Line 44: the f-string [f"{chrom}\t{start}\t{end}\t{value}\n"]. *)
Definition format (iv : interval) : string :=
  chrom iv +:+ Text.tab +:+ Text.str (start iv) +:+ Text.tab +:+
  Text.str (end_ iv) +:+ Text.tab +:+ value iv +:+ Text.newline.

(** Lines 31-45: the loop over the lines of the input file.  The result is
    the sequence of strings written and the exception that ended the loop,
    if one did. *)
Fixpoint adjust_loop (cur : cursor) (lines : list string)
  : list string * option exn :=
  match lines with
  | [] => ([], None)
  | line :: rest =>
      match parse_line line with
      | inl e => ([], Some e)
      | inr iv =>
          let '(cur', o) := body cur iv in
          let '(written, err) := adjust_loop cur' rest in
          (match o with Some x => format x :: written | None => written end,
           err)
      end
  end.

(** *** Input and output conditions *)

Definition well_formed (iv : interval) : Prop := start iv < end_ iv.

(** Ascending by [(chromosome, start)], chromosomes compared bytewise as
    [sort -k1,1 -k2,2n] does in the C locale. *)
Definition key_le (a b : interval) : Prop :=
  String.le (chrom a) (chrom b) ∧ (chrom a = chrom b → start a ≤ start b).

Definition sorted_input (ivs : list interval) : Prop := Sorted key_le ivs.

Global Instance well_formed_dec iv : Decision (well_formed iv).
Proof. unfold well_formed. apply _. Defined.

Global Instance key_le_dec : RelDecision key_le.
Proof. intros a b. unfold key_le. apply _. Defined.

(** [a] lies wholly before [b] when they share a chromosome. *)
Definition before (a b : interval) : Prop :=
  chrom a = chrom b → end_ a ≤ start b.

(** What the cursor promises about a record still to come. *)
Definition clear_of (cur : cursor) (o : interval) : Prop :=
  current_chrom cur = Some (chrom o) → current_end cur ≤ start o.

(** The condition under which a cursor may meet a sorted input: nothing
    to come sorts before the chromosome of the cursor. *)
Definition ahead (cur : cursor) (ivs : list interval) : Prop :=
  ∀ c x, current_chrom cur = Some c → x ∈ ivs → String.le c (chrom x).

(** A record the sweep leaves as it is when it meets it at [cur]. *)
Definition settled (cur : cursor) (o : interval) : Prop :=
  well_formed o ∧ 0 ≤ start o ∧ clear_of cur o.

(** The emitted record is the input record with its start moved forward. *)
Definition moved (o i : interval) : Prop :=
  chrom o = chrom i ∧ end_ o = end_ i ∧ value o = value i ∧ start i ≤ start o.

(** A line the loop cannot take apart: not four fields, or a coordinate
    that [int] refuses. *)
Definition malformed (line : string) : Prop :=
  let fields := Text.split (Text.strip line) in
  length fields ≠ 4%nat ∨
  ∃ c s e v, fields = [c; s; e; v] ∧ (Text.int s = None ∨ Text.int e = None).

(** The line parses, to the record [iv]. *)
Definition parsed (line : string) (iv : interval) : Prop :=
  parse_line line = inr iv.

(** Chromosome and value are fields, as [split] produces them. *)
Definition tokens (iv : interval) : Prop :=
  Text.field (chrom iv) ∧ Text.field (value iv).

(** The string written, [chunk], comes from the line read, [line]: it is
    the formatted record with the chromosome and the value of the line, and
    read back it has the value of the line as its fourth field. *)
Definition carries (chunk line : string) : Prop :=
  ∃ c s e v s' e',
    Text.split (Text.strip line) = [c; s; e; v]
    ∧ chunk = c +:+ Text.tab +:+ Text.str s' +:+ Text.tab +:+ Text.str e'
              +:+ Text.tab +:+ v +:+ Text.newline
    ∧ Text.split (Text.strip chunk) = [c; Text.str s'; Text.str e'; v].

(** The three scenarios of the specification. *)
Definition scenario1 : list interval :=
  [Interval "chr1" 100 200 "5.0"; Interval "chr1" 150 250 "3.0";
   Interval "chr1" 260 300 "1.0"].
Definition scenario2 : list interval :=
  [Interval "chr1" 100 200 "5.0"; Interval "chr1" 120 180 "2.0"].
Definition scenario3 : list interval :=
  [Interval "chr1" 100 200 "5.0"; Interval "chr2" 50 150 "9.0"].

(** A sorted input over two chromosomes with an overlap and a subsumed
    interval on each side of the chromosome change. *)
Definition sample : list interval :=
  [Interval "chr1" 100 200 "5.0"; Interval "chr1" 150 250 "3.0";
   Interval "chr1" 160 240 "0.5"; Interval "chr2" 50 150 "9.0";
   Interval "chr2" 120 140 "2.5"; Interval "chr2" 150 170 "1e-3"].

(** *** Further notions about the sweep *)

(** The cursor left by the loop over [ivs]. *)
Fixpoint final_cursor (cur : cursor) (ivs : list interval) : cursor :=
  match ivs with
  | [] => cur
  | iv :: rest => final_cursor (body cur iv).1 rest
  end.

(** Position [p] of chromosome [c] lies in the range of the record. *)
Definition covers (c : string) (p : Z) (iv : interval) : Prop :=
  chrom iv = c ∧ start iv ≤ p < end_ iv.

(** A record as the loop writes it: positive length, start not negative. *)
Definition proper (o : interval) : Prop := 0 ≤ start o < end_ o.

(** The first record of [ivs], if there is one, is clear of the cursor. *)
Definition head_clear (cur : cursor) (ivs : list interval) : Prop :=
  match ivs with
  | [] => True
  | x :: _ => clear_of cur x
  end.

(** The records of each chromosome stand together: between two records of
    one chromosome there is none of another.  [cs] is the sequence of the
    chromosome names. *)
Definition contiguous (cs : list string) : Prop :=
  ∀ i j k c, (i ≤ j)%nat → (j ≤ k)%nat →
    cs !! i = Some c → cs !! k = Some c → cs !! j = Some c.

Definition grouped (ivs : list interval) : Prop := contiguous (chrom <$> ivs).

(** The chromosome of the cursor, if it has one, in front of those of the
    records to come. *)
Definition upcoming (cur : cursor) (ivs : list interval) : list string :=
  match current_chrom cur with
  | Some c => c :: (chrom <$> ivs)
  | None => chrom <$> ivs
  end.

(** An input grouped by chromosome whose starts go down. *)
Definition unordered_sample : list interval :=
  [Interval "chr2" 300 400 "1"; Interval "chr2" 100 350 "2";
   Interval "chr1" 50 80 "3"; Interval "chr1" 10 90 "4";
   Interval "chr1" 85 95 "5"].

Global Instance covers_dec c p iv : Decision (covers c p iv).
Proof. unfold covers. apply _. Defined.

(** A line feed or a carriage return: where the iteration over a text file
    ends a line. *)
Definition is_break (c : ascii) : bool :=
  bool_decide (c = "010"%char) || bool_decide (c = "013"%char).

Fixpoint no_break (s : string) : bool :=
  match s with
  | "" => true
  | String c s' => negb (is_break c) && no_break s'
  end.

(** The string is one line of text: it ends in a line feed and has no line
    break before it. *)
Definition one_line (chunk : string) : Prop :=
  ∃ content, chunk = content +:+ Text.newline ∧ no_break content = true.

(** What a reader of the output finds in a line the loop wrote: a record
    that is [proper] and is written back the same. *)
Definition reads_back (chunk : string) : Prop :=
  ∃ o, parse_line chunk = inr o ∧ proper o ∧ format o = chunk.

End Repair.

(** ** The driver and its effects *)

Module Driver.

(** What the script does to the outside: console output, the file system,
    sub-processes.  [Progress] and [Print] stand for the writes of the
    progress line and of the closing message, whose decorations are left
    out; [ReadLines] is [open(path, 'r')] with the iteration over the lines,
    [WriteLines] is [open(path, 'w')] with the writes made until the file
    is closed. *)
Inductive action :=
  | Progress (step total : Z) (message : string)
  | Flush
  | Sleep
  | Print (output_file : string)
  | PathExists (path : string)
  | Run (argv : list string)
  | Shell (cmd : string)
  | Chmod (path : string) (mode : Z)
  | ReadLines (path : string)
  | WriteLines (path : string) (written : list string)
  | Remove (path : string).

Global Instance action_eq_dec : EqDecision action.
Proof. solve_decision. Defined.

(** What an action hands back: [os.path.exists] a boolean, [subprocess.run]
    the exit status of the process, a read the lines of the file. *)
Definition resp (a : action) : Type :=
  match a with
  | PathExists _ => bool
  | Run _ | Shell _ => Z
  | ReadLines _ => list string
  | _ => unit
  end.

Inductive outcome (A : Type) :=
  | Returned (x : A)
  | Raised (e : exn).
Global Arguments Returned {A} x.
Global Arguments Raised {A} e.

(** Programs: the script has no [try], so a program says what to do with a
    value an action returns and nothing about an exception it raises. *)
Inductive prog (A : Type) : Type :=
  | Ret (x : A)
  | Raise (e : exn)
  | Do (a : action) (k : resp a → prog A).
Global Arguments Ret {A} x.
Global Arguments Raise {A} e.
Global Arguments Do {A} a k.

Fixpoint bind {A B} (p : prog A) (f : A → prog B) : prog B :=
  match p with
  | Ret x => f x
  | Raise e => Raise e
  | Do a k => Do a (λ r, bind (k r) f)
  end.

Global Instance prog_ret : MRet prog := @Ret.
Global Instance prog_bind : MBind prog := λ A B f p, bind p f.

Definition call (a : action) : prog (resp a) := Do a Ret.

(** [for x in xs: f(x)] *)
Fixpoint for_ {X} (xs : list X) (f : X → prog unit) : prog unit :=
  match xs with
  | [] => Ret ()
  | x :: xs' => f x ;; for_ xs' f
  end.

(** The outside world answers each action, knowing the actions made so
    far: it returns a value or raises. *)
Definition world := list action → ∀ a : action, outcome (resp a).

(** Running a program from a history of actions: the history at the end and
    the result.  An exception raised by an action ends the run. *)
Fixpoint run {A} (w : world) (p : prog A) (hist : list action)
  : list action * outcome A :=
  match p with
  | Ret x => (hist, Returned x)
  | Raise e => (hist, Raised e)
  | Do a k =>
      match w hist a with
      | Returned r => run w (k r) (hist ++ [a])
      | Raised e => (hist ++ [a], Raised e)
      end
  end.

(** *** [download_resources] *)

Definition resources : list (string * string) :=
  [("http://hgdownload.soe.ucsc.edu/admin/exe/linux.x86_64/bigWigToBedGraph", "bigWigToBedGraph");
   ("http://hgdownload.soe.ucsc.edu/admin/exe/linux.x86_64/bedGraphToBigWig", "bedGraphToBigWig");
   ("http://hgdownload.soe.ucsc.edu/admin/exe/linux.x86_64/bedClip", "bedClip");
   ("http://hgdownload.cse.ucsc.edu/goldenpath/hg19/liftOver/hg19ToHg38.over.chain.gz", "hg19ToHg38.over.chain.gz");
   ("http://hgdownload.cse.ucsc.edu/goldenpath/hg38/liftOver/hg38ToHg19.over.chain.gz", "hg38ToHg19.over.chain.gz");
   ("https://hgdownload.cse.ucsc.edu/goldenpath/hg38/bigZips/hg38.chrom.sizes", "hg38.chrom.sizes");
   ("https://hgdownload.cse.ucsc.edu/goldenpath/hg19/bigZips/hg19.chrom.sizes", "hg19.chrom.sizes")].

Definition download_resources : prog unit :=
  for_ resources (λ '(url, filename),
    present ← call (PathExists filename);
    if negb present then call (Run ["wget"; url]) ;; Ret () else Ret ()) ;;
  for_ ["bigWigToBedGraph"; "bedGraphToBigWig"; "bedClip"] (λ tool,
    call (Chmod tool 493)).

(** *** [adjust_overlaps] *)

Definition reraise (err : option exn) : prog unit :=
  match err with
  | Some e => Raise e
  | None => Ret ()
  end.

Definition adjust_overlaps (input_file output_file : string) : prog unit :=
  lines ← call (ReadLines input_file);
  let '(written, err) := Repair.adjust_loop Repair.initial lines in
  call (WriteLines output_file written) ;;
  reraise err.

(** *** [print_progress] *)

Definition print_progress (step total_steps : Z) (message : string)
  : prog unit :=
  call (Progress step total_steps message) ;;
  call Flush ;;
  call Sleep.

(** *** [convert_bigwig] *)

(** Lines 91-95: the first field of each line of the sizes table. *)
Fixpoint load_chroms (lines : list string) (target_chroms : gset string)
  : exn + gset string :=
  match lines with
  | [] => inr target_chroms
  | line :: rest =>
      match Text.split (Text.strip line) with
      | [] => inl IndexError
      | chrom :: _ => load_chroms rest ({[chrom]} ∪ target_chroms)
      end
  end.

(** Lines 110-114: the lines whose first field is a known chromosome. *)
Fixpoint filter_loop (target_chroms : gset string) (lines : list string)
  : list string * option exn :=
  match lines with
  | [] => ([], None)
  | line :: rest =>
      match Text.split line with
      | [] => ([], Some IndexError)
      | chrom :: _ =>
          let '(written, err) := filter_loop target_chroms rest in
          (if bool_decide (chrom ∈ target_chroms)
           then line :: written else written, err)
      end
  end.

Definition assemblies : list string := ["hg19"; "hg38"].

Definition temporaries : list string :=
  ["input.bedGraph"; "output.bedGraph"; "filtered_output.bedGraph";
   "clipped_output.bedGraph"; "sorted_output.bedGraph";
   "adjusted_output.bedGraph"].

(** The five external stages, as the driver starts them. *)
Definition decode (input_file : string) : action :=
  Run ["./bigWigToBedGraph"; input_file; "input.bedGraph"].
Definition lift (chain_file : string) : action :=
  Run ["CrossMap"; "bed"; chain_file; "input.bedGraph"; "output.bedGraph"].
Definition bedclip (chrom_sizes_file : string) : action :=
  Run ["./bedClip"; "filtered_output.bedGraph"; chrom_sizes_file;
       "clipped_output.bedGraph"].
Definition sort : action :=
  Shell "sort -k1,1 -k2,2n clipped_output.bedGraph > sorted_output.bedGraph".
Definition encode (chrom_sizes_file output_file : string) : action :=
  Run ["./bedGraphToBigWig"; "adjusted_output.bedGraph"; chrom_sizes_file;
       output_file].

Definition convert_bigwig
    (input_file output_file source_assembly target_assembly : string)
    (clean_temp : bool) : prog unit :=
  if bool_decide (source_assembly ∉ assemblies)
     || bool_decide (target_assembly ∉ assemblies)
  then Raise (ValueError (Message
         "Source and target assemblies must be either 'hg19' or 'hg38'"))
  else if bool_decide (source_assembly = target_assembly)
  then Raise (ValueError (Message
         "Source and target assemblies must be different"))
  else
    let total_steps := 9 in
    let current_step := 1 in
    print_progress current_step total_steps
      "Initializing genome conversion process..." ;;
    let current_step := current_step + 1 in
    print_progress current_step total_steps "Downloading resources..." ;;
    download_resources ;;
    let current_step := current_step + 1 in
    print_progress current_step total_steps "Installing CrossMap..." ;;
    call (Run ["pip"; "install"; "CrossMap"]) ;;
    let current_step := current_step + 1 in
    let chain_file :=
      source_assembly +:+ "To" +:+ Text.capitalize target_assembly +:+
      ".over.chain.gz" in
    let chrom_sizes_file := target_assembly +:+ ".chrom.sizes" in
    print_progress current_step total_steps
      "Loading target chromosome sizes..." ;;
    sizes ← call (ReadLines chrom_sizes_file);
    match load_chroms sizes ∅ with
    | inl e => Raise e
    | inr target_chroms =>
        let current_step := current_step + 1 in
        print_progress current_step total_steps
          "Converting bigWig to bedGraph..." ;;
        call (decode input_file) ;;
        let current_step := current_step + 1 in
        print_progress current_step total_steps
          "Converting coordinates with CrossMap..." ;;
        call (lift chain_file) ;;
        let current_step := current_step + 1 in
        print_progress current_step total_steps
          "Filtering chromosomes and clipping coordinates..." ;;
        lifted ← call (ReadLines "output.bedGraph");
        let '(kept, err) := filter_loop target_chroms lifted in
        call (WriteLines "filtered_output.bedGraph" kept) ;;
        reraise err ;;
        call (bedclip chrom_sizes_file) ;;
        call sort ;;
        let current_step := current_step + 1 in
        print_progress current_step total_steps
          "Adjusting overlapping regions..." ;;
        adjust_overlaps "sorted_output.bedGraph" "adjusted_output.bedGraph" ;;
        let current_step := current_step + 1 in
        print_progress current_step total_steps
          "Converting back to bigWig..." ;;
        call (encode chrom_sizes_file output_file) ;;
        (if clean_temp
         then for_ temporaries (λ file,
                present ← call (PathExists file);
                if present : bool then call (Remove file) else Ret ())
         else Ret ()) ;;
        call (Print output_file)
    end.

(** *** Conditions on runs *)

Definition valid_assemblies (source_assembly target_assembly : string) : Prop :=
  source_assembly ∈ assemblies ∧ target_assembly ∈ assemblies ∧
  source_assembly ≠ target_assembly.

Global Instance valid_assemblies_dec s t : Decision (valid_assemblies s t).
Proof. unfold valid_assemblies. apply _. Defined.

(** The actions that start a process. *)
Definition is_process (a : action) : bool :=
  match a with
  | Run _ | Shell _ => true
  | _ => false
  end.

(** The external stages of the pipeline. *)
Definition is_stage (a : action) : bool :=
  match a with
  | Run (cmd :: _) =>
      bool_decide (cmd ∈ ["./bigWigToBedGraph"; "CrossMap"; "./bedClip";
                          "./bedGraphToBigWig"])
  | Shell _ => true
  | _ => false
  end.

Definition raised {A} (o : outcome A) : Prop :=
  match o with Raised _ => True | Returned _ => False end.

(** The call could not be made: [subprocess.run] raises, as it does when
    the binary of a stage it starts itself is missing. *)
Definition not_started (a : action) (o : outcome (resp a)) : Prop := raised o.

(** A stage that could not be started or that ended with a status other
    than zero. *)
Definition stage_failed (a : action) : outcome (resp a) → Prop :=
  match a with
  | Run _ | Shell _ => λ o,
      match o with Raised _ => True | Returned status => status ≠ 0 end
  | _ => λ o, raised o
  end.

(** Every stage of the run that meets [failed] is the last action of the
    run, and the run ends with an exception. *)
Definition fatal (failed : ∀ a, outcome (resp a) → Prop)
    (w : world) (p : prog unit) : Prop :=
  ∀ pre a post,
    (run w p []).1 = pre ++ a :: post →
    is_stage a = true → failed a (w pre a) →
    post = [] ∧ raised (run w p []).2.

(** The world that answers as [w] does, with every exit status zero. *)
Definition all_succeed (w : world) : world := λ hist a,
  match a return outcome (resp a) → outcome (resp a) with
  | Run _ | Shell _ => λ o,
      match o with Returned _ => Returned 0 | Raised e => Raised e end
  | _ => λ o, o
  end (w hist a).

(** Programs that make no use of an exit status. *)
Inductive oblivious {A} : prog A → Prop :=
  | oblivious_ret x : oblivious (Ret x)
  | oblivious_raise e : oblivious (Raise e)
  | oblivious_do a k :
      (∀ r, oblivious (k r)) →
      (is_process a = true → ∀ r r', k r = k r') →
      oblivious (Do a k).

(** A world in which the decode stage ends with status 1 while the files
    the later stages read are there, left by an earlier run. *)
Definition stale_world : world := λ hist a,
  match a return outcome (resp a) with
  | PathExists _ => Returned true
  | Run argv =>
      Returned (if bool_decide (argv = ["./bigWigToBedGraph"; "in.bw";
                                        "input.bedGraph"]) then 1 else 0)
  | Shell _ => Returned 0
  | ReadLines path =>
      Returned (if bool_decide (path = "hg38.chrom.sizes")
                then ["chr1" +:+ Text.tab +:+ "248956422" +:+ Text.newline]
                else [Repair.format (Repair.Interval "chr1" 5 10 "1.0")])
  | _ => Returned ()
  end.

(** A world in which every read returns [lines] and nothing fails. *)
Definition file_world (lines : list string) : world := λ hist a,
  match a return outcome (resp a) with
  | PathExists _ => Returned true
  | Run _ | Shell _ => Returned 0
  | ReadLines _ => Returned lines
  | _ => Returned ()
  end.

(** A sorted file whose second line has an end that is no integer and
    whose third line has three fields. *)
Definition bad_file : list string :=
  [Repair.format (Repair.Interval "chr1" 100 200 "5.0");
   "chr1 150 2e2 3.0"; "chr1 260 300"].

(** *** Further notions about the driver *)

(** A line without any field: empty or white space only. *)
Definition blank (line : string) : Prop := Text.split line = [].

Global Instance blank_dec line : Decision (blank line).
Proof. unfold blank. apply _. Defined.

(** The first field of the line is a chromosome of the set. *)
Definition keeps (target_chroms : gset string) (line : string) : bool :=
  match Text.split line with
  | [] => false
  | chrom :: _ => bool_decide (chrom ∈ target_chroms)
  end.

(** The first fields of the lines. *)
Definition first_fields (lines : list string) : list string :=
  omap (λ line, head (Text.split line)) lines.

(** Every action a program may make is one of [P]. *)
Inductive only {A} (P : action → Prop) : prog A → Prop :=
  | only_ret x : only P (Ret x)
  | only_raise e : only P (Raise e)
  | only_do a k : P a → (∀ r, only P (k r)) → only P (Do a k).

(** Every action of the run of [p] from [hist] in the world [w] meets [Q]
    at the history it is made in. *)
Fixpoint always {A} (w : world) (Q : list action → action → Prop)
    (p : prog A) (hist : list action) : Prop :=
  match p with
  | Ret _ | Raise _ => True
  | Do a k =>
      Q hist a ∧
      match w hist a with
      | Returned r => always w Q (k r) (hist ++ [a])
      | Raised _ => True
      end
  end.

(** The actions a run adds to the history it starts from. *)
Definition added {A} (w : world) (p : prog A) (hist : list action)
  : list action :=
  drop (length hist) (run w p hist).1.

(** The files the driver may test, read, write, make executable or
    remove. *)
Definition files_ok (clean_temp : bool) (a : action) : Prop :=
  match a with
  | PathExists f => f ∈ resources.*2 ∨ (clean_temp = true ∧ f ∈ temporaries)
  | Chmod f mode =>
      mode = 493 ∧ f ∈ ["bigWigToBedGraph"; "bedGraphToBigWig"; "bedClip"]
  | ReadLines f =>
      f ∈ ["hg19.chrom.sizes"; "hg38.chrom.sizes"; "output.bedGraph";
           "sorted_output.bedGraph"]
  | WriteLines f _ =>
      f ∈ ["filtered_output.bedGraph"; "adjusted_output.bedGraph"]
  | Remove f => clean_temp = true ∧ f ∈ temporaries
  | _ => True
  end.

(** The processes the driver may start: a download of a resource, the
    installation of CrossMap, and the five stages, each with a chain file
    and a sizes file that are among the resources. *)
Definition process_ok (input_file output_file : string) (a : action) : Prop :=
  match a with
  | Run argv =>
      (∃ url f, (url, f) ∈ resources ∧ argv = ["wget"; url])
      ∨ argv = ["pip"; "install"; "CrossMap"]
      ∨ ∃ chain sizes,
          chain ∈ resources.*2 ∧ sizes ∈ resources.*2
          ∧ Run argv ∈ [decode input_file; lift chain; bedclip sizes;
                        encode sizes output_file]
  | Shell _ => a = sort
  | _ => True
  end.

(** A download follows the test that found its file missing, a removal the
    test that found its file present. *)
Definition checked_first (w : world) (pre : list action) (a : action) : Prop :=
  match a with
  | Run argv =>
      ∀ url, argv = ["wget"; url] →
        ∃ pre' f, pre = pre' ++ [PathExists f] ∧ (url, f) ∈ resources
                  ∧ w pre' (PathExists f) = Returned false
  | Remove f =>
      ∃ pre', pre = pre' ++ [PathExists f]
              ∧ w pre' (PathExists f) = Returned true
  | _ => True
  end.

(** The steps of the pipeline that leave a trace: the stages and the two
    files the driver writes itself. *)
Definition is_milestone (a : action) : bool :=
  match a with
  | WriteLines _ _ => true
  | _ => is_stage a
  end.

Definition milestones (t : list action) : list action :=
  List.filter is_milestone t.

(** The chain file and the sizes file of a conversion. *)
Definition chain_file (source_assembly target_assembly : string) : string :=
  source_assembly +:+ "To" +:+ Text.capitalize target_assembly +:+
  ".over.chain.gz".
Definition chrom_sizes_file (target_assembly : string) : string :=
  target_assembly +:+ ".chrom.sizes".

(** The milestones of a complete run, in order. *)
Definition pipeline (input_file output_file source_assembly target_assembly
    : string) (kept written : list string) : list action :=
  [decode input_file;
   lift (chain_file source_assembly target_assembly);
   WriteLines "filtered_output.bedGraph" kept;
   bedclip (chrom_sizes_file target_assembly);
   sort;
   WriteLines "adjusted_output.bedGraph" written;
   encode (chrom_sizes_file target_assembly) output_file].

(** A world with nothing on disk where every download and every tool
    works: reads return [lines]. *)
Definition fresh_world (lines : list string) : world := λ hist a,
  match a return outcome (resp a) with
  | PathExists _ => Returned false
  | Run _ | Shell _ => Returned 0
  | ReadLines _ => Returned lines
  | _ => Returned ()
  end.

(** A program all of whose runs meet [Q]. *)
Definition safe {A} (w : world) (Q : list action → action → Prop)
    (p : prog A) : Prop :=
  ∀ hist, always w Q p hist.

(** Not a milestone. *)
Definition silent (a : action) : Prop := is_milestone a = false.

(** A write without what was written. *)
Definition unwritten (a : action) : action :=
  match a with
  | WriteLines f _ => WriteLines f []
  | _ => a
  end.

(** The milestones of a trace, without the contents of the writes. *)
Definition outline (t : list action) : list action :=
  unwritten <$> milestones t.

(** The run of [p] from [hist] passes milestones of [ms], from the first
    on and in order, and all of them when it returns. *)
Definition leads {A} (w : world) (p : prog A) (hist : list action)
    (ms : list action) : Prop :=
  outline (added w p hist) `prefix_of` ms
  ∧ ∀ x, (run w p hist).2 = Returned x → outline (added w p hist) = ms.

(** Every run of the program returns. *)
Definition returns {A} (w : world) (p : prog A) : Prop :=
  ∀ hist, ∃ t x, run w p hist = (t, Returned x).

(** A world in which no action raises, every file read has a field on each
    line, and the sorted file has four fields with integer coordinates on
    each line.  Nothing is asked of the exit statuses. *)
Definition cooperative (w : world) : Prop :=
  (∀ hist a, ¬ raised (w hist a))
  ∧ ∀ hist f lines,
      w hist (ReadLines f) = Returned lines →
      Forall (λ line, ¬ blank line) lines
      ∧ (f = "sorted_output.bedGraph" →
         Forall (λ line, ¬ Repair.malformed line) lines).

(** A world in which every tool ends with status 2 and every file holds
    the one record given. *)
Definition failing_tools_world : world := λ hist a,
  match a return outcome (resp a) with
  | PathExists _ => Returned true
  | Run _ | Shell _ => Returned 2
  | ReadLines _ =>
      Returned [Repair.format (Repair.Interval "chr1" 5 10 "1.0")]
  | _ => Returned ()
  end.

End Driver.

(** ** Facts about the string builtins *)

Module TextFacts.
Import Text.

Lemma append_cons c s t : String c s +:+ t = String c (s +:+ t).
Proof. done. Qed.

Lemma append_nil_l t : "" +:+ t = t.
Proof. done. Qed.

Lemma append_nil_r s : s +:+ "" = s.
Proof. induction s as [|c s IH]; [done|]. by rewrite append_cons, IH. Qed.

Lemma append_assoc s t u : (s +:+ t) +:+ u = s +:+ (t +:+ u).
Proof. induction s as [|c s IH]; [done|]. by rewrite !append_cons, IH. Qed.

Lemma is_empty_app s t : is_empty (s +:+ t) = is_empty s && is_empty t.
Proof. by destruct s. Qed.

Lemma no_space_app s t : no_space (s +:+ t) = no_space s && no_space t.
Proof.
  induction s as [|c s IH]; [done|].
  rewrite append_cons. simpl. rewrite IH. by rewrite andb_assoc.
Qed.

(** *** [strip] and [split] *)

Example split_examples :
  split "  a b   c " = ["a"; "b"; "c"]
  ∧ split (strip ("chr1" +:+ tab +:+ "100  200 5.0" +:+ newline))
    = ["chr1"; "100"; "200"; "5.0"]
  ∧ strip "  a b   c " = "a b   c"
  ∧ split "" = [] ∧ split newline = [].
Proof. by vm_compute. Qed.

Lemma split_go_lstrip s : split_go (lstrip s) "" = split_go s "".
Proof.
  induction s as [|c s IH]; [done|]. simpl.
  destruct (is_space c) eqn:Hc; [done|]. simpl. by rewrite Hc.
Qed.

Lemma split_go_rstrip s cur : split_go (rstrip s) cur = split_go s cur.
Proof.
  revert cur. induction s as [|c s IH]; intros cur; [done|]. simpl.
  destruct (is_space c) eqn:Hc; simpl.
  - destruct (is_empty (rstrip s)) eqn:He.
    + rewrite <-(IH ""). destruct (rstrip s); [|done]. simpl.
      by destruct (is_empty cur).
    + simpl. rewrite Hc. by rewrite IH.
  - rewrite Hc. apply IH.
Qed.

(** [strip] before [split] changes nothing. *)
Lemma split_strip s : split (strip s) = split s.
Proof. unfold split, strip. by rewrite split_go_rstrip, split_go_lstrip. Qed.

Lemma strip_no_space s : no_space s = true → strip s = s.
Proof.
  intros Hs. unfold strip.
  assert (lstrip s = s) as ->.
  { destruct s as [|c s]; [done|]. simpl in *. by destruct (is_space c). }
  induction s as [|c s IH]; [done|]. simpl in *.
  apply andb_true_iff in Hs as [Hc Hs]. rewrite IH by done.
  by destruct (is_space c).
Qed.

Lemma split_go_fields s cur :
  no_space cur = true → Forall field (split_go s cur).
Proof.
  revert cur. induction s as [|c s IH]; intros cur Hcur; simpl.
  { destruct (is_empty cur) eqn:He; by repeat constructor. }
  destruct (is_space c) eqn:Hc.
  - destruct (is_empty cur) eqn:He; [by apply IH|].
    constructor; [done|by apply IH].
  - apply IH. rewrite no_space_app, Hcur. simpl. by rewrite Hc.
Qed.

Lemma split_fields s : Forall field (split s).
Proof. by apply split_go_fields. Qed.

(** A field followed by white space is the next token of the scan. *)
Lemma split_go_field t c rest cur :
  no_space t = true → is_space c = true → is_empty (cur +:+ t) = false →
  split_go (t +:+ String c rest) cur = (cur +:+ t) :: split_go rest "".
Proof.
  revert cur. induction t as [|d t IH]; intros cur Ht Hc He.
  - rewrite append_nil_r in He |- *. rewrite append_nil_l. simpl. by rewrite Hc, He.
  - simpl in Ht. apply andb_true_iff in Ht as [Hd Ht].
    rewrite append_cons. simpl. destruct (is_space d); [done|].
    rewrite IH; [|done..|].
    + f_equal. by rewrite append_assoc.
    + rewrite append_assoc. by rewrite append_cons, append_nil_l.
Qed.

Lemma split_field t c rest :
  field t → is_space c = true →
  split_go (t +:+ String c rest) "" = t :: split_go rest "".
Proof. intros [He Ht] Hc. by rewrite split_go_field. Qed.

(** *** [int] and [str] *)

Example int_examples :
  int "12" = Some 12 ∧ int "-12" = Some (-12) ∧ int "+1_000" = Some 1000
  ∧ int "007" = Some 7 ∧ int " 7 " = Some 7 ∧ int "0" = Some 0
  ∧ int "" = None ∧ int "-" = None ∧ int "1__0" = None ∧ int "_1" = None
  ∧ int "1_" = None ∧ int "1.5" = None ∧ int "1e3" = None ∧ int "+-5" = None.
Proof. by vm_compute. Qed.

Example str_examples :
  str 0 = "0" ∧ str 7 = "7" ∧ str 10 = "10" ∧ str 100 = "100"
  ∧ str (-45) = "-45" ∧ str 248956422 = "248956422".
Proof. by vm_compute. Qed.

Lemma digit_cases d :
  0 ≤ d < 10 →
  d = 0 ∨ d = 1 ∨ d = 2 ∨ d = 3 ∨ d = 4 ∨ d = 5 ∨ d = 6 ∨ d = 7 ∨ d = 8 ∨ d = 9.
Proof. lia. Qed.

Ltac each_digit H :=
  apply digit_cases in H;
  destruct H as [->|[->|[->|[->|[->|[->|[->|[->|[->| ->]]]]]]]]].

Lemma digit_value_char d : 0 ≤ d < 10 → digit_value (digit_char d) = Some d.
Proof. intros H. by each_digit H. Qed.

Lemma digit_char_plain d :
  0 ≤ d < 10 →
  is_space (digit_char d) = false ∧ digit_char d ≠ "_"%char
  ∧ digit_char d ≠ "-"%char ∧ digit_char d ≠ "+"%char.
Proof. intros H. by each_digit H. Qed.

Lemma enough_step fuel n :
  enough (S fuel) n → 10 ≤ n → enough fuel (n `div` 10).
Proof.
  unfold enough. rewrite Nat2Z.inj_succ, Z.pow_succ_r by lia.
  pose proof (Z.pow_pos_nonneg 2 (Z.of_nat fuel)).
  generalize dependent (2 ^ Z.of_nat fuel). intros p Hp Hn H10.
  Z.div_mod_to_equations. lia.
Qed.

Lemma enough_log2 n : 0 ≤ n → enough (Z.to_nat (Z.log2 n)) n.
Proof.
  intros Hn. unfold enough. rewrite Z2Nat.id by apply Z.log2_nonneg.
  destruct (decide (n = 0)) as [->|]; [done|].
  pose proof (Z.log2_spec n). rewrite Z.pow_succ_r in * by apply Z.log2_nonneg.
  lia.
Qed.

Lemma unsigned_decimal_go fuel n acc :
  enough fuel n →
  unsigned (decimal_go fuel n acc) = digitpart n false acc.
Proof.
  revert n acc. induction fuel as [|fuel IH]; intros n acc Hn.
  - unfold enough in Hn. simpl in *. rewrite Z.mod_small by lia.
    by rewrite digit_value_char by lia.
  - simpl. destruct (Z.ltb_spec n 10) as [Hlt|Hge].
    + unfold enough in Hn. simpl. rewrite Z.mod_small by lia.
      by rewrite digit_value_char by lia.
    + rewrite IH by by apply enough_step.
      pose proof (Z.mod_pos_bound n 10 ltac:(lia)) as Hm.
      destruct (digit_char_plain _ Hm) as (_ & Hus & _).
      simpl. rewrite bool_decide_eq_false_2 by done.
      rewrite digit_value_char by done.
      f_equal. Z.div_mod_to_equations. lia.
Qed.

Lemma decimal_go_head fuel n acc :
  ∃ d s, 0 ≤ d < 10 ∧ decimal_go fuel n acc = String (digit_char d) s
         ∧ no_space s = no_space acc.
Proof.
  revert n acc. induction fuel as [|fuel IH]; intros n acc.
  - exists (n `mod` 10), acc. split_and!; [apply Z.mod_pos_bound; lia..|done|done].
  - simpl. destruct (n <? 10).
    + exists (n `mod` 10), acc. split_and!; [apply Z.mod_pos_bound; lia..|done|done].
    + destruct (IH (n `div` 10) (String (digit_char (n `mod` 10)) acc))
        as (d & s & Hd & -> & Hs).
      exists d, s. split_and!; [lia..|done|]. rewrite Hs. simpl.
      pose proof (Z.mod_pos_bound n 10 ltac:(lia)) as Hm.
      destruct (digit_char_plain _ Hm) as (-> & _). done.
Qed.

Lemma unsigned_decimal n : 0 ≤ n → unsigned (decimal n) = Some n.
Proof.
  intros Hn. unfold decimal. by rewrite unsigned_decimal_go by by apply enough_log2.
Qed.

Lemma decimal_field n : field (decimal n).
Proof.
  unfold decimal.
  destruct (decimal_go_head (Z.to_nat (Z.log2 n)) n "") as (d & s & Hd & -> & Hs).
  destruct (digit_char_plain _ Hd) as (Hsp & _).
  split; [done|]. simpl. by rewrite Hsp, Hs.
Qed.

Lemma str_field n : field (str n).
Proof.
  unfold str. destruct (n <? 0); [|apply decimal_field].
  destruct (decimal_field (- n)) as [_ Hs]. split; [done|].
  by rewrite append_cons, append_nil_l.
Qed.

(** [int(str(n)) == n] *)
Lemma int_str n : int (str n) = Some n.
Proof.
  unfold int. rewrite strip_no_space by apply str_field.
  unfold str. destruct (Z.ltb_spec n 0) as [Hlt|Hge].
  - rewrite append_cons, append_nil_l. rewrite unsigned_decimal by lia.
    simpl. f_equal. lia.
  - pose proof (unsigned_decimal n Hge) as Hu. unfold decimal in *.
    destruct (decimal_go_head (Z.to_nat (Z.log2 n)) n "") as (d & s & Hd & Heq & _).
    rewrite Heq in *. by each_digit Hd.
Qed.

End TextFacts.

(** ** Facts about the repair sweep *)

Module RepairFacts.
Import Repair.

Lemma interval_eta iv :
  Interval (chrom iv) (start iv) (end_ iv) (value iv) = iv.
Proof. by destruct iv. Qed.

Lemma reset_chrom cur c : current_chrom (reset cur c) = Some c.
Proof.
  unfold reset. case_bool_decide as Hc; [done|].
  destruct (decide (Some c = current_chrom cur)); [done|by destruct Hc].
Qed.

Lemma reset_same cur c : current_chrom cur = Some c → reset cur c = cur.
Proof. intros Hc. unfold reset. rewrite bool_decide_eq_false_2; [done|]. by intros []. Qed.

Lemma reset_other cur c :
  current_chrom cur ≠ Some c → reset cur c = Cursor (Some c) 0.
Proof. intros Hc. unfold reset. by rewrite bool_decide_eq_true_2. Qed.

Lemma reset_end cur c :
  current_end (reset cur c) = 0 ∨ reset cur c = cur.
Proof. unfold reset. case_bool_decide; auto. Qed.

Lemma clip_ge cur s : current_end cur ≤ clip cur s ∧ s ≤ clip cur s.
Proof. unfold clip. destruct (Z.ltb_spec s (current_end cur)); lia. Qed.

Lemma clip_id cur s : current_end cur ≤ s → clip cur s = s.
Proof. unfold clip. intros. destruct (Z.ltb_spec s (current_end cur)); lia. Qed.

Lemma body_Some cur iv cur' o :
  body cur iv = (cur', Some o) →
  o = Interval (chrom iv) (clip (reset cur (chrom iv)) (start iv))
        (end_ iv) (value iv)
  ∧ cur' = Cursor (Some (chrom iv)) (end_ iv)
  ∧ clip (reset cur (chrom iv)) (start iv) < end_ iv.
Proof.
  unfold body. destruct (Z.ltb_spec (clip (reset cur (chrom iv)) (start iv)) (end_ iv));
    [|done].
  rewrite reset_chrom. by intros [= <- <-].
Qed.

Lemma body_None cur iv cur' :
  body cur iv = (cur', None) →
  cur' = reset cur (chrom iv)
  ∧ end_ iv ≤ clip (reset cur (chrom iv)) (start iv).
Proof.
  unfold body. destruct (Z.ltb_spec (clip (reset cur (chrom iv)) (start iv)) (end_ iv));
    [done|].
  by intros [= <-].
Qed.

(** Every record written comes from one record read, in order. *)
Lemma sweep_moved cur ivs :
  ∃ sel, sel `sublist_of` ivs ∧ Forall2 moved (sweep cur ivs) sel.
Proof.
  revert cur. induction ivs as [|iv rest IH]; intros cur; simpl.
  { exists []. split; constructor. }
  destruct (body cur iv) as [cur' [o|]] eqn:Hb.
  - destruct (IH cur') as (sel & Hsub & Hall).
    apply body_Some in Hb as (-> & _ & _).
    exists (iv :: sel). split; [by constructor|].
    constructor; [|done].
    unfold moved; simpl. pose proof (clip_ge (reset cur (chrom iv)) (start iv)).
    split_and!; [done..|lia].
  - destruct (IH cur') as (sel & Hsub & Hall).
    exists sel. split; [by constructor|done].
Qed.

Lemma sweep_chrom cur ivs o :
  o ∈ sweep cur ivs → ∃ x, x ∈ ivs ∧ chrom x = chrom o.
Proof.
  destruct (sweep_moved cur ivs) as (sel & Hsub & Hall). intros Ho.
  apply list_elem_of_lookup in Ho as [i Hi].
  destruct (Forall2_lookup_l _ _ _ _ _ Hall Hi) as (x & Hx & Hm).
  exists x. split; [|by destruct Hm as (-> & _)].
  eapply elem_of_sublist; [|done]. by eapply list_elem_of_lookup_2.
Qed.

Global Instance key_le_trans : Transitive key_le.
Proof.
  intros a b c [Hab Hab'] [Hbc Hbc']. split; [by etrans|].
  intros Hac. rewrite Hac in Hab.
  assert (chrom b = chrom c) as Hbc'' by (by apply (anti_symm String.le)).
  assert (chrom a = chrom b) by congruence.
  specialize (Hab' ltac:(done)). specialize (Hbc' Hbc''). lia.
Qed.

Lemma sweep_sound cur ivs :
  StronglySorted key_le ivs → ahead cur ivs → 0 ≤ current_end cur →
  Forall (settled cur) (sweep cur ivs) ∧ StronglySorted before (sweep cur ivs).
Proof.
  revert cur. induction ivs as [|iv rest IH]; intros cur Hs Ha He; simpl.
  { split; constructor. }
  apply StronglySorted_inv in Hs as [Hs Hhd].
  assert (0 ≤ current_end (reset cur (chrom iv))) as He1.
  { destruct (reset_end cur (chrom iv)) as [->| ->]; lia. }
  assert (ahead (Cursor (Some (chrom iv)) (end_ iv)) rest) as Ha1.
  { intros c x [= <-] Hx. rewrite Forall_forall in Hhd. by apply Hhd. }
  assert (∀ o', o' ∈ sweep (body cur iv).1 rest →
            current_chrom cur = Some (chrom o') →
            chrom iv = chrom o' ∧ reset cur (chrom iv) = cur) as Hsame.
  { intros o' Ho' Hc. apply sweep_chrom in Ho' as (x & Hx & Hxo).
    assert (chrom iv = chrom o') as Heq.
    { apply (anti_symm String.le).
      - rewrite <-Hxo. rewrite Forall_forall in Hhd. by apply Hhd.
      - apply Ha; [done|]. by left. }
    split; [done|]. apply reset_same. by rewrite Heq. }
  destruct (body cur iv) as [cur' [o|]] eqn:Hb; simpl in Hsame.
  - apply body_Some in Hb as (-> & -> & Hlt).
    pose proof (clip_ge (reset cur (chrom iv)) (start iv)) as [Hc1 Hc2].
    destruct (IH (Cursor (Some (chrom iv)) (end_ iv))) as [Hall Hsorted];
      [done|done|simpl; lia|].
    split.
    + constructor.
      * unfold settled, well_formed, clear_of. split_and!; simpl; [done|lia|].
        intros Hc. by rewrite reset_same in Hc1 |- *.
      * rewrite Forall_forall in Hall |- *. intros o' Ho'.
        destruct (Hall o' Ho') as (Hwf & H0 & Hclear).
        split_and!; [done..|].
        intros Hc. destruct (Hsame o' Ho' Hc) as [Heq Hr].
        rewrite Hr in Hc1, Hlt. unfold clear_of in Hclear; simpl in Hclear.
        specialize (Hclear ltac:(by rewrite Heq)). lia.
    + constructor; [done|].
      rewrite Forall_forall in Hall |- *. intros o' Ho' Heq; simpl in *.
      destruct (Hall o' Ho') as (_ & _ & Hclear). apply Hclear; simpl.
      by rewrite Heq.
  - apply body_None in Hb as (-> & Hge).
    destruct (IH (reset cur (chrom iv))) as [Hall Hsorted]; [done| |done|].
    { intros c x. rewrite reset_chrom. apply Ha1. }
    split; [|done].
    rewrite Forall_forall in Hall |- *. intros o' Ho'.
    destruct (Hall o' Ho') as (Hwf & H0 & Hclear).
    split_and!; [done..|].
    intros Hc. destruct (Hsame o' Ho' Hc) as [Heq Hr].
    rewrite Hr in Hclear. by apply Hclear.
Qed.

(** A settled, pairwise separated sequence passes through unchanged. *)
Lemma sweep_fixed cur out :
  Forall (settled cur) out → StronglySorted before out → sweep cur out = out.
Proof.
  revert cur. induction out as [|o rest IH]; intros cur Hall Hs; [done|].
  apply Forall_cons in Hall as [(Hwf & H0 & Hclear) Hall].
  apply StronglySorted_inv in Hs as [Hs Hhd].
  assert (clip (reset cur (chrom o)) (start o) = start o) as Hclip.
  { apply clip_id. destruct (decide (current_chrom cur = Some (chrom o))) as [Hc|Hc].
    - rewrite reset_same; [|done]. by apply Hclear.
    - by rewrite reset_other. }
  simpl. unfold body. rewrite Hclip.
  destruct (Z.ltb_spec (start o) (end_ o)) as [_|]; [|unfold well_formed in Hwf; lia].
  rewrite interval_eta, reset_chrom. f_equal. apply IH; [|done].
  rewrite Forall_forall in Hall, Hhd |- *. intros o' Ho'.
  destruct (Hall o' Ho') as (? & ? & _). split_and!; [done..|].
  intros [= Heq]. by apply Hhd.
Qed.

Lemma StronglySorted_lookup {A} (R : relation A) l i j a b :
  StronglySorted R l → (i < j)%nat → l !! i = Some a → l !! j = Some b → R a b.
Proof.
  intros Hs. revert i j. induction Hs as [|x l Hs IH Hhd]; intros i j Hij Hi Hj.
  { done. }
  destruct j as [|j]; [lia|]. destruct i as [|i]; simpl in *.
  - injection Hi as ->. rewrite Forall_forall in Hhd. apply Hhd.
    by eapply list_elem_of_lookup_2.
  - apply (IH i j); [lia|done..].
Qed.

Lemma ahead_initial ivs : ahead initial ivs.
Proof. by intros c x. Qed.

Lemma repair_sound ivs :
  sorted_input ivs →
  Forall (settled initial) (repair ivs) ∧ StronglySorted before (repair ivs).
Proof.
  intros Hs. apply sweep_sound; [|apply ahead_initial|done].
  by apply Sorted_StronglySorted; [apply _|].
Qed.

(** C1: for every sequence of well-formed intervals sorted ascending by
    (chromosome, start), every interval the engine emits has
    [start < end], and of two emitted intervals on the same chromosome the
    earlier one ends at or before the start of the later one, so that
    starts and ends increase strictly along each chromosome. *)
Theorem repair_disjoint_increasing (ivs : list interval) :
  Forall well_formed ivs → sorted_input ivs →
  Forall well_formed (repair ivs) ∧
  ∀ i j a b, (i < j)%nat →
    repair ivs !! i = Some a → repair ivs !! j = Some b →
    chrom a = chrom b →
    end_ a ≤ start b ∧ start a < start b ∧ end_ a < end_ b.
Proof.
  intros _ Hs. destruct (repair_sound ivs Hs) as [Hall Hsorted].
  assert (Forall well_formed (repair ivs)) as Hwf.
  { eapply Forall_impl; [done|]. by intros o (? & _). }
  split; [done|]. intros i j a b Hij Hi Hj Heq.
  pose proof (StronglySorted_lookup _ _ _ _ _ _ Hsorted Hij Hi Hj Heq).
  rewrite Forall_forall in Hwf.
  assert (well_formed a) by (apply Hwf; by eapply list_elem_of_lookup_2).
  assert (well_formed b) by (apply Hwf; by eapply list_elem_of_lookup_2).
  unfold well_formed in *. lia.
Qed.

Lemma repair_disjoint_increasing_witness :
  Forall well_formed (repair sample) ∧
  ∀ i j a b, (i < j)%nat →
    repair sample !! i = Some a → repair sample !! j = Some b →
    chrom a = chrom b →
    end_ a ≤ start b ∧ start a < start b ∧ end_ a < end_ b.
Proof.
  apply (repair_disjoint_increasing sample).
  - apply (bool_decide_unpack _). by vm_compute.
  - apply (bool_decide_unpack _). by vm_compute.
Defined.

(** C2: the start is rewritten to [current_end] exactly when it is less
    than [current_end]; an overlapping interval that reaches past the
    cursor is emitted with its start clipped to [current_end], an abutting
    well-formed interval is emitted unchanged, and on scenario 1 the second
    start moves from 150 to 200. *)
Theorem body_clips_overlap (cur : cursor) (iv : interval) :
  let cur1 := reset cur (chrom iv) in
  (start iv < current_end cur1 → clip cur1 (start iv) = current_end cur1)
  ∧ (current_end cur1 ≤ start iv → clip cur1 (start iv) = start iv)
  ∧ (start iv < current_end cur1 → current_end cur1 < end_ iv →
     (body cur iv).2 =
       Some (Interval (chrom iv) (current_end cur1) (end_ iv) (value iv)))
  ∧ (start iv = current_end cur1 → well_formed iv →
     (body cur iv).2 = Some iv)
  ∧ repair scenario1 =
      [Interval "chr1" 100 200 "5.0"; Interval "chr1" 200 250 "3.0";
       Interval "chr1" 260 300 "1.0"]
  ∧ adjust_loop initial (format <$> scenario1) =
      (format <$> [Interval "chr1" 100 200 "5.0";
                   Interval "chr1" 200 250 "3.0";
                   Interval "chr1" 260 300 "1.0"], None).
Proof.
  intros cur1. unfold body. fold cur1. unfold clip, well_formed. split_and!.
  - intros. destruct (Z.ltb_spec (start iv) (current_end cur1)); lia.
  - intros. destruct (Z.ltb_spec (start iv) (current_end cur1)); lia.
  - intros H1 H2. destruct (Z.ltb_spec (start iv) (current_end cur1)); [|lia].
    by destruct (Z.ltb_spec (current_end cur1) (end_ iv)); [|lia].
  - intros H1 H2. destruct (Z.ltb_spec (start iv) (current_end cur1)); [lia|].
    destruct (Z.ltb_spec (start iv) (end_ iv)); [|lia].
    simpl. by rewrite interval_eta.
  - by vm_compute.
  - by vm_compute.
Qed.

(** C3: an interval is dropped exactly when its start after the
    adjustment is not below its end, which for a well-formed interval means
    [end <= current_end]; it is then not written at all and the cursor is
    left as the chromosome test set it; an interval that is written has
    positive length and moves [current_end] to its end; scenario 2 keeps the
    first interval only. *)
Theorem body_drops_subsumed (cur : cursor) (iv : interval) :
  let cur1 := reset cur (chrom iv) in
  ((body cur iv).2 = None ↔ end_ iv ≤ clip cur1 (start iv))
  ∧ (well_formed iv →
     ((body cur iv).2 = None ↔ end_ iv ≤ current_end cur1))
  ∧ ((body cur iv).2 = None → (body cur iv).1 = cur1)
  ∧ (∀ o, (body cur iv).2 = Some o →
       well_formed o ∧ (body cur iv).1 = Cursor (Some (chrom iv)) (end_ iv))
  ∧ repair scenario2 = [Interval "chr1" 100 200 "5.0"]
  ∧ adjust_loop initial (format <$> scenario2) =
      (format <$> [Interval "chr1" 100 200 "5.0"], None).
Proof.
  intros cur1.
  assert ((body cur iv).2 = None ↔ end_ iv ≤ clip cur1 (start iv)) as Hdrop.
  { destruct (body cur iv) as [cur' [o|]] eqn:Hb; simpl.
    - apply body_Some in Hb as (_ & _ & Hlt). fold cur1 in Hlt.
      split; [done|lia].
    - by apply body_None in Hb as (_ & Hge). }
  split_and!; [done| | | |by vm_compute..].
  - intros Hwf. rewrite Hdrop. unfold clip, well_formed in *.
    destruct (Z.ltb_spec (start iv) (current_end cur1)); lia.
  - destruct (body cur iv) as [cur' [o|]] eqn:Hb; [done|].
    by apply body_None in Hb as (-> & _).
  - intros o Ho. destruct (body cur iv) as [cur' [o'|]] eqn:Hb; [|done].
    simpl in Ho. injection Ho as ->.
    by apply body_Some in Hb as (-> & -> & Hlt).
Qed.

(** C4: when the chromosome of the incoming interval differs from the one
    of the cursor, the cursor becomes (chrom, 0) and the interval is treated
    as the first of the file, whatever [current_end] was: a well-formed
    interval with a start that is not negative is emitted unchanged;
    scenario 3 emits both intervals unchanged. *)
Theorem new_chromosome_resets (cur : cursor) (iv : interval) :
  current_chrom cur ≠ Some (chrom iv) →
  reset cur (chrom iv) = Cursor (Some (chrom iv)) 0
  ∧ body cur iv = body initial iv
  ∧ (∀ e, body (Cursor (current_chrom cur) e) iv = body cur iv)
  ∧ (0 ≤ start iv → well_formed iv → (body cur iv).2 = Some iv)
  ∧ repair scenario3 = scenario3
  ∧ adjust_loop initial (format <$> scenario3) = (format <$> scenario3, None).
Proof.
  intros Hc.
  assert (∀ c', current_chrom c' ≠ Some (chrom iv) →
            body c' iv = body initial iv) as Hb.
  { intros c' Hc'. unfold body.
    by rewrite (reset_other c'), (reset_other initial). }
  split_and!; [by apply reset_other|by apply Hb| | |by vm_compute..].
  - intros e. rewrite (Hb cur) by done. by apply Hb.
  - intros H0 Hwf. rewrite Hb by done. unfold body, well_formed in *.
    rewrite reset_other by done. rewrite clip_id by done.
    destruct (Z.ltb_spec (start iv) (end_ iv)); [|lia].
    simpl. by rewrite interval_eta.
Qed.

Lemma new_chromosome_resets_witness :
  current_chrom (Cursor (Some "chr1") 200) ≠ Some "chr2"
  ∧ (reset (Cursor (Some "chr1") 200) "chr2" = Cursor (Some "chr2") 0
     ∧ body (Cursor (Some "chr1") 200) (Interval "chr2" 50 150 "9.0")
       = (Cursor (Some "chr2") 150, Some (Interval "chr2" 50 150 "9.0"))).
Proof.
  split; [done|].
  destruct (new_chromosome_resets (Cursor (Some "chr1") 200)
              (Interval "chr2" 50 150 "9.0")) as (Hreset & Hbody & _).
  - done.
  - split; [exact Hreset|]. rewrite Hbody. by vm_compute.
Defined.

(** C5: the emitted intervals correspond, one to one and in order, to a
    selection of the input intervals; each has the chromosome, the end and
    the value of its input interval and a start that is not smaller.  No
    input interval gives rise to two outputs. *)
Theorem repair_only_moves_start (ivs : list interval) :
  ∃ sel, sel `sublist_of` ivs ∧
    Forall2 (λ o i, chrom o = chrom i ∧ end_ o = end_ i ∧ value o = value i
                    ∧ start i ≤ start o) (repair ivs) sel.
Proof. apply sweep_moved. Qed.


End RepairFacts.

(** ** Facts about the loop over lines *)

Module LineFacts.
Import Repair RepairFacts TextFacts.

Lemma tab_app s : Text.tab +:+ s = String "009"%char s.
Proof. done. Qed.

Lemma split_format c s e v :
  Text.field c → Text.field v →
  Text.split (Text.strip (format (Interval c s e v)))
  = [c; Text.str s; Text.str e; v].
Proof.
  intros Hc Hv. rewrite split_strip. unfold format, Text.split; simpl.
  rewrite !tab_app.
  rewrite split_field by done.
  rewrite split_field by (apply str_field || done).
  rewrite split_field by (apply str_field || done).
  unfold Text.newline. by rewrite split_field.
Qed.

(** Reading back what was written gives the record written. *)
Lemma parse_format iv : tokens iv → parse_line (format iv) = inr iv.
Proof.
  intros [Hc Hv]. unfold parse_line. rewrite <-(interval_eta iv) at 1.
  rewrite split_format by done. rewrite !int_str. by rewrite interval_eta.
Qed.

Lemma parse_line_inr line iv :
  parse_line line = inr iv →
  tokens iv ∧ ∃ s e, Text.split (Text.strip line) = [chrom iv; s; e; value iv]
                     ∧ Text.int s = Some (start iv) ∧ Text.int e = Some (end_ iv).
Proof.
  unfold parse_line. pose proof (split_fields (Text.strip line)) as Hf.
  destruct (Text.split (Text.strip line)) as [|c [|s [|e [|v [|]]]]]; try done.
  destruct (Text.int s) as [s'|] eqn:Hs; [|done].
  destruct (Text.int e) as [e'|] eqn:He; [|done].
  intros [= <-]. simpl.
  apply Forall_cons in Hf as [Hc Hf]. apply Forall_cons in Hf as [_ Hf].
  apply Forall_cons in Hf as [_ Hf]. apply Forall_cons in Hf as [Hv _].
  split; [done|]. by exists s, e.
Qed.

Lemma parse_line_malformed line :
  malformed line → ∃ why, parse_line line = inl (ValueError why).
Proof.
  unfold malformed, parse_line. intros [Hlen|(c & s & e & v & -> & Hint)].
  - destruct (Text.split (Text.strip line)) as [|c [|s [|e [|v [|]]]]];
      by eauto.
  - destruct (Text.int s); [|by eauto].
    destruct Hint as [He|He]; [done|]. rewrite He. by eauto.
Qed.

Lemma adjust_loop_parsed cur lines ivs :
  Forall2 parsed lines ivs →
  adjust_loop cur lines = (format <$> sweep cur ivs, None).
Proof.
  intros H. revert cur. induction H as [|line iv lines ivs Hp _ IH]; intros cur.
  { done. }
  simpl. rewrite Hp. destruct (body cur iv) as [cur' [o|]]; by rewrite IH.
Qed.

(** The strings written before a line that cannot be parsed are those of
    the lines before it; the loop ends there with the exception. *)
Lemma adjust_loop_stops cur lines ivs line rest why :
  Forall2 parsed lines ivs → parse_line line = inl why →
  adjust_loop cur (lines ++ line :: rest) = (format <$> sweep cur ivs, Some why).
Proof.
  intros H Hbad. revert cur. induction H as [|l iv lines ivs Hp _ IH]; intros cur.
  { simpl. by rewrite Hbad. }
  simpl. rewrite Hp. destruct (body cur iv) as [cur' [o|]]; by rewrite IH.
Qed.

Lemma parsed_tokens lines ivs : Forall2 parsed lines ivs → Forall tokens ivs.
Proof.
  induction 1 as [|line iv lines ivs Hp _ IH]; constructor; [|done].
  by apply parse_line_inr in Hp as [? _].
Qed.

Lemma sweep_tokens cur ivs : Forall tokens ivs → Forall tokens (sweep cur ivs).
Proof.
  intros Hall. destruct (sweep_moved cur ivs) as (sel & Hsub & Hm).
  rewrite Forall_forall in Hall |- *. intros o Ho.
  apply list_elem_of_lookup in Ho as [i Hi].
  destruct (Forall2_lookup_l _ _ _ _ _ Hm Hi) as (x & Hx & Hc & _ & Hv & _).
  assert (tokens x) as [? ?].
  { apply Hall. eapply elem_of_sublist; [|done]. by eapply list_elem_of_lookup_2. }
  split; congruence.
Qed.

Lemma formatted_parsed out : Forall tokens out → Forall2 parsed (format <$> out) out.
Proof.
  induction 1 as [|o out Ho _ IH]; constructor; [|done]. by apply parse_format.
Qed.

(** C6: the engine is idempotent on input sorted ascending by (chromosome,
    start): repairing its output again returns that output, for sequences
    of intervals and for the text of the file alike; the second pass leaves
    every interval as it is, as any pass over well-formed, pairwise
    separated intervals with starts that are not negative does. *)
Theorem repair_idempotent (ivs : list interval) :
  sorted_input ivs →
  repair (repair ivs) = repair ivs
  ∧ (∀ lines, Forall2 parsed lines ivs →
       adjust_loop initial (adjust_loop initial lines).1
       = ((adjust_loop initial lines).1, None))
  ∧ (∀ out, Forall well_formed out → Forall (λ o, 0 ≤ start o) out →
       StronglySorted before out → repair out = out).
Proof.
  intros Hs. destruct (repair_sound ivs Hs) as [Hall Hsorted].
  assert (repair (repair ivs) = repair ivs) as Hfix by by apply sweep_fixed.
  split_and!; [done| |].
  - intros lines Hp. rewrite (adjust_loop_parsed _ _ _ Hp). simpl.
    fold (repair ivs).
    rewrite (adjust_loop_parsed _ _ (repair ivs)).
    + fold (repair (repair ivs)). by rewrite Hfix.
    + apply formatted_parsed, sweep_tokens. by eapply parsed_tokens.
  - intros out Hwf H0 Hb. apply sweep_fixed; [|done].
    rewrite Forall_forall in Hwf, H0 |- *. intros o Ho.
    split_and!; [by apply Hwf|by apply H0|done].
Qed.

Lemma repair_idempotent_witness :
  sorted_input sample ∧
  (repair (repair sample) = repair sample
   ∧ (∀ lines, Forall2 parsed lines sample →
        adjust_loop initial (adjust_loop initial lines).1
        = ((adjust_loop initial lines).1, None))
   ∧ (∀ out, Forall well_formed out → Forall (λ o, 0 ≤ start o) out →
        StronglySorted before out → repair out = out)).
Proof.
  split.
  - apply (bool_decide_unpack _). by vm_compute.
  - apply (repair_idempotent sample).
    apply (bool_decide_unpack _). by vm_compute.
Defined.

(** C10: every string written is the formatted record of one line read, in
    order; its value field is the fourth token of that line, character for
    character, and is what a reader of the output finds as fourth field. *)
Theorem value_written_verbatim (cur : cursor) (lines : list string) :
  ∃ sel, sel `sublist_of` lines ∧
    Forall2 carries (adjust_loop cur lines).1 sel.
Proof.
  revert cur. induction lines as [|line rest IH]; intros cur; simpl.
  { exists []. split; constructor. }
  destruct (parse_line line) as [e|iv] eqn:Hp; simpl.
  { exists []. split; [apply sublist_nil_l|constructor]. }
  destruct (body cur iv) as [cur' o] eqn:Hb.
  destruct (IH cur') as (sel & Hsub & Hall).
  destruct (adjust_loop cur' rest) as [written err]; simpl in *.
  destruct o as [o|].
  - exists (line :: sel). split; [by constructor|]. constructor; [|done].
    apply body_Some in Hb as (-> & _ & _).
    apply parse_line_inr in Hp as ([Hc Hv] & s & e & Hsplit & _).
    exists (chrom iv), s, e, (value iv), (clip (reset cur (chrom iv)) (start iv)),
      (end_ iv).
    split_and!; [done|done|]. by apply split_format.
  - exists sel. split; [by constructor|done].
Qed.

End LineFacts.

(** ** Facts about the driver *)

Module DriverFacts.
Import Repair Driver RepairFacts LineFacts.

Lemma run_extends {A} (w : world) (p : prog A) hist :
  ∃ t, (run w p hist).1 = hist ++ t.
Proof.
  revert hist. induction p as [x|e|a k IH]; intros hist; simpl.
  - exists []. by rewrite app_nil_r.
  - exists []. by rewrite app_nil_r.
  - destruct (w hist a) as [r|e].
    + destruct (IH r (hist ++ [a])) as [t ->]. exists (a :: t).
      by rewrite <-app_assoc.
    + by exists [a].
Qed.

Lemma run_bind {A B} (w : world) (p : prog A) (f : A → prog B) hist :
  run w (p ≫= f) hist =
  match run w p hist with
  | (t, Returned x) => run w (f x) t
  | (t, Raised e) => (t, Raised e)
  end.
Proof.
  revert hist. induction p as [x|e|a k IH]; intros hist; simpl; [done..|].
  destruct (w hist a) as [r|e]; [|done]. apply IH.
Qed.

(** An action that raises is the last one, and the run raises what it
    raised: nothing in the script catches an exception. *)
Lemma run_raise_last {A} (w : world) (p : prog A) hist pre a post e :
  (run w p hist).1 = pre ++ a :: post →
  (length hist ≤ length pre)%nat →
  w pre a = Raised e →
  post = [] ∧ (run w p hist).2 = Raised e.
Proof.
  revert hist. induction p as [x|e'|a' k IH]; intros hist Ht Hlen Hw; simpl in *.
  - apply (f_equal length) in Ht. rewrite length_app in Ht. simpl in Ht. lia.
  - apply (f_equal length) in Ht. rewrite length_app in Ht. simpl in Ht. lia.
  - assert (∀ t, hist ++ a' :: t = pre ++ a :: post →
              length hist = length pre → hist = pre ∧ a' = a ∧ t = post) as Hsplit.
    { intros t Heq Hl. apply app_inj_1 in Heq as [-> [= -> ->]]; done. }
    destruct (w hist a') as [r|e'] eqn:Hr.
    + destruct (decide (length (hist ++ [a']) ≤ length pre)%nat) as [Hle|Hgt].
      { by apply (IH r (hist ++ [a'])). }
      rewrite length_app in Hgt. simpl in Hgt.
      destruct (run_extends w (k r) (hist ++ [a'])) as [t Ht'].
      rewrite Ht', <-app_assoc in Ht. simpl in Ht.
      destruct (Hsplit t Ht ltac:(lia)) as (-> & -> & _). congruence.
    + simpl in *.
      destruct (decide (length hist = length pre)) as [Hl|Hl].
      * destruct (Hsplit [] Ht Hl) as (-> & -> & <-). split; [done|congruence].
      * apply (f_equal length) in Ht. rewrite !length_app in Ht. simpl in Ht. lia.
Qed.

(** *** Exit statuses are not looked at *)

Lemma run_oblivious {A} (p : prog A) :
  oblivious p → ∀ w hist, run (all_succeed w) p hist = run w p hist.
Proof.
  induction 1 as [x|e|a k _ IH Hk]; intros w hist; simpl; [done..|].
  unfold all_succeed at 1.
  destruct a; simpl in *; destruct (w hist _) as [r|e]; try done;
    rewrite IH; by rewrite (Hk eq_refl 0 r).
Qed.

Lemma oblivious_bind {A B} (p : prog A) (f : A → prog B) :
  oblivious p → (∀ x, oblivious (f x)) → oblivious (p ≫= f).
Proof.
  intros Hp Hf. induction Hp as [x|e|a k _ IH Hk]; simpl.
  - apply Hf.
  - constructor.
  - constructor; [done|]. intros Ha r r'. unfold mbind, prog_bind in *.
    by rewrite (Hk Ha r r').
Qed.

Lemma oblivious_call (a : action) :
  is_process a = false → oblivious (call a).
Proof.
  intros Ha. constructor; [constructor|]. by rewrite Ha.
Qed.

(** A process whose status is dropped: [subprocess.run(...)] as a
    statement. *)
Lemma oblivious_status_dropped {A} (a : action) (q : prog A) :
  oblivious q → oblivious (call a ;; q).
Proof. intros Hq. by constructor. Qed.

Lemma oblivious_for {X} (xs : list X) (f : X → prog unit) :
  (∀ x, oblivious (f x)) → oblivious (for_ xs f).
Proof.
  intros Hf. induction xs as [|x xs IH]; [constructor|].
  simpl. by apply oblivious_bind.
Qed.

Lemma oblivious_reraise err : oblivious (reraise err).
Proof. destruct err; constructor. Qed.

Ltac oblivious_step :=
  match goal with
  | |- oblivious (call ?a ;; _) => apply (oblivious_status_dropped a)
  | |- oblivious (call ?a) => by apply (oblivious_call a)
  | |- oblivious (_ ≫= _) => apply oblivious_bind
  | |- oblivious (for_ _ _) => apply oblivious_for
  | |- oblivious (reraise _) => apply oblivious_reraise
  | |- oblivious (Ret _) => constructor
  | |- oblivious (Raise _) => constructor
  | |- oblivious (match ?x with _ => _ end) => destruct x
  | |- oblivious (let '(_, _) := ?x in _) => destruct x
  | |- ∀ _, _ => intros
  end.

Lemma oblivious_print_progress step total message :
  oblivious (print_progress step total message).
Proof. unfold print_progress. repeat oblivious_step. Qed.

Lemma oblivious_download_resources : oblivious download_resources.
Proof. unfold download_resources. repeat oblivious_step. Qed.

Lemma oblivious_adjust_overlaps input_file output_file :
  oblivious (adjust_overlaps input_file output_file).
Proof. unfold adjust_overlaps. repeat oblivious_step. Qed.

Lemma oblivious_convert_bigwig i o s t c : oblivious (convert_bigwig i o s t c).
Proof.
  unfold convert_bigwig.
  repeat first
    [ apply oblivious_print_progress
    | apply oblivious_download_resources
    | apply oblivious_adjust_overlaps
    | oblivious_step ].
Qed.

Lemma convert_bigwig_valid i o s t c :
  valid_assemblies s t →
  ∃ k, convert_bigwig i o s t c
       = Do (Progress 1 9 "Initializing genome conversion process...") k.
Proof.
  intros (Hs & Ht & Hne). unfold convert_bigwig.
  rewrite (bool_decide_eq_false_2 (s ∉ assemblies)) by (by intros []).
  rewrite (bool_decide_eq_false_2 (t ∉ assemblies)) by (by intros []).
  rewrite (bool_decide_eq_false_2 (s = t)) by done.
  simpl orb. cbv iota. by eexists.
Qed.

Lemma convert_bigwig_invalid i o s t c :
  ¬ valid_assemblies s t →
  ∃ msg, convert_bigwig i o s t c = Raise (ValueError (Message msg)).
Proof.
  intros Hn. unfold convert_bigwig.
  destruct (decide (s ∈ assemblies)) as [Hs|Hs].
  2: { rewrite (bool_decide_eq_true_2 (s ∉ assemblies)) by done. by eexists. }
  destruct (decide (t ∈ assemblies)) as [Ht|Ht].
  2: { rewrite (bool_decide_eq_true_2 (t ∉ assemblies)) by done.
       rewrite orb_true_r. by eexists. }
  rewrite (bool_decide_eq_false_2 (s ∉ assemblies)) by (by intros []).
  rewrite (bool_decide_eq_false_2 (t ∉ assemblies)) by (by intros []).
  destruct (decide (s = t)) as [Heq|Hne].
  - rewrite (bool_decide_eq_true_2 (s = t)) by done. by eexists.
  - by destruct Hn.
Qed.

(** C7: whatever the outside world and the other arguments, the driver
    ends with the [ValueError] of the configuration check without having
    made any action (no process, no file access, no output) exactly when
    the two assembly identifiers are not both among 'hg19' and 'hg38' or
    are equal; with source 'hg19' and target 'hg19' it does. *)
Theorem config_error_before_effects (w : world) (hist : list action)
    (input_file output_file source_assembly target_assembly : string)
    (clean_temp : bool) :
  ((∃ msg,
      run w (convert_bigwig input_file output_file source_assembly
               target_assembly clean_temp) hist
      = (hist, Raised (ValueError (Message msg))))
   ↔ (source_assembly ∉ assemblies ∨ target_assembly ∉ assemblies
      ∨ source_assembly = target_assembly))
  ∧ run w (convert_bigwig input_file output_file "hg19" "hg19" clean_temp) hist
    = (hist, Raised (ValueError (Message
               "Source and target assemblies must be different"))).
Proof.
  split; [|done]. split.
  - intros [msg Hrun].
    destruct (decide (valid_assemblies source_assembly target_assembly))
      as [Hv|Hn].
    + destruct (convert_bigwig_valid input_file output_file _ _ clean_temp Hv)
        as [k Hk].
      rewrite Hk in Hrun. simpl in Hrun.
      apply (f_equal fst) in Hrun. simpl in Hrun.
      destruct (w hist _) as [r|e]; simpl in Hrun.
      * destruct (run_extends w (k r) (hist ++ [Progress 1 9
          "Initializing genome conversion process..."])) as [t Ht].
        rewrite Ht in Hrun. apply (f_equal length) in Hrun.
        rewrite !length_app in Hrun. simpl in Hrun. lia.
      * apply (f_equal length) in Hrun.
        rewrite !length_app in Hrun. simpl in Hrun. lia.
    + unfold valid_assemblies in Hn.
      destruct (decide (source_assembly ∈ assemblies)); [|by left].
      destruct (decide (target_assembly ∈ assemblies)); [|by right; left].
      destruct (decide (source_assembly = target_assembly)); [by right; right|].
      by destruct Hn.
  - intros Hbad.
    destruct (convert_bigwig_invalid input_file output_file source_assembly
                target_assembly clean_temp) as [msg ->].
    + intros (? & ? & ?). by destruct Hbad as [?|[?|?]].
    + by exists msg.
Qed.

(** C8, as the specification states it, fails: in [stale_world] the decode
    stage ends with status 1, yet the run goes on through every later
    stage, starts the encode stage that writes the output file and returns
    normally. *)
Lemma nonzero_exit_not_fatal :
  ¬ fatal stage_failed stale_world
      (convert_bigwig "in.bw" "out.bw" "hg19" "hg38" true)
  ∧ (run stale_world (convert_bigwig "in.bw" "out.bw" "hg19" "hg38" true) []).2
    = Returned ()
  ∧ encode "hg38.chrom.sizes" "out.bw"
    ∈ (run stale_world (convert_bigwig "in.bw" "out.bw" "hg19" "hg38" true) []).1
  ∧ (run stale_world (convert_bigwig "in.bw" "out.bw" "hg19" "hg38" true) []).1
      !! 27%nat = Some (decode "in.bw")
  ∧ (∀ pre, stale_world pre (decode "in.bw") = Returned 1).
Proof.
  split_and!; [| | |by vm_compute|done].
  - intros Hf.
    set (t := (run stale_world
                 (convert_bigwig "in.bw" "out.bw" "hg19" "hg38" true) []).1).
    destruct (Hf (take 27 t) (decode "in.bw") (drop 28 t)) as [Hpost _].
    + by vm_compute.
    + done.
    + by vm_compute.
    + by vm_compute in Hpost.
  - by vm_compute.
  - apply (bool_decide_unpack _). by vm_compute.
Qed.

(** C8, amended: a stage that cannot be started (the call raises, as for a
    missing binary) is the last action of the run and the run ends with the
    exception, so no later stage runs and the output file is not written;
    an exit status is never looked at: the run is the same, action for
    action, as in the world where every status is zero. *)
Theorem stage_failure_handling (w : world)
    (input_file output_file source_assembly target_assembly : string)
    (clean_temp : bool) :
  fatal not_started w
    (convert_bigwig input_file output_file source_assembly target_assembly
       clean_temp)
  ∧ run (all_succeed w)
      (convert_bigwig input_file output_file source_assembly target_assembly
         clean_temp) []
    = run w
        (convert_bigwig input_file output_file source_assembly target_assembly
           clean_temp) [].
Proof.
  split.
  - intros pre a post Ht _ Hfail. unfold not_started in Hfail.
    destruct (w pre a) as [r|e] eqn:Hw; [done|].
    destruct (run_raise_last w _ [] pre a post e Ht) as [-> Hr];
      [simpl; lia|done|].
    split; [done|]. by rewrite Hr.
  - apply run_oblivious, oblivious_convert_bigwig.
Qed.

Lemma parse_line_inl line e :
  parse_line line = inl e → malformed line ∧ ∃ why, e = ValueError why.
Proof.
  unfold malformed, parse_line.
  destruct (Text.split (Text.strip line)) as [|c [|s [|x [|v [|]]]]];
    try (intros [= <-]; split; [by left|by eexists]).
  destruct (Text.int s) eqn:Hs.
  - destruct (Text.int x) eqn:Hx; [done|].
    intros [= <-]. split; [|by eexists]. right. exists c, s, x, v. by auto.
  - intros [= <-]. split; [|by eexists]. right. exists c, s, x, v. by auto.
Qed.

Lemma first_malformed lines :
  Exists malformed lines →
  ∃ good ivs bad rest,
    lines = good ++ bad :: rest ∧ Forall2 parsed good ivs ∧ malformed bad.
Proof.
  induction lines as [|line lines IH]; intros Hex; [by inv Hex|].
  destruct (parse_line line) as [e|iv] eqn:Hp.
  - exists [], [], line, lines. split_and!; [done|constructor|].
    by apply parse_line_inl in Hp as [? _].
  - inv Hex.
    { match goal with H : malformed line |- _ =>
        apply parse_line_malformed in H as [why Hw] end. congruence. }
    destruct IH as (good & ivs & bad & rest & -> & Hg & Hb); [done|].
    exists (line :: good), (iv :: ivs), bad, rest.
    split_and!; [done|by constructor|done].
Qed.

(** C9: when some line of the input file does not have exactly four
    fields, or has a start or an end that [int] refuses, [adjust_overlaps]
    raises: the loop stops at the first such line with a [ValueError],
    what is written is the output for the lines before it and nothing for
    that line or the lines after it. *)
Theorem adjust_overlaps_fails_fast (w : world) (hist : list action)
    (input_file output_file : string) (lines : list string) :
  w hist (ReadLines input_file) = Returned lines →
  Exists malformed lines →
  raised (run w (adjust_overlaps input_file output_file) hist).2
  ∧ ∃ good ivs bad rest why,
      lines = good ++ bad :: rest
      ∧ Forall2 parsed good ivs
      ∧ malformed bad
      ∧ adjust_loop initial lines
        = (format <$> repair ivs, Some (ValueError why))
      ∧ (w (hist ++ [ReadLines input_file])
           (WriteLines output_file (format <$> repair ivs)) = Returned () →
         run w (adjust_overlaps input_file output_file) hist
         = (hist ++ [ReadLines input_file;
                     WriteLines output_file (format <$> repair ivs)],
            Raised (ValueError why))).
Proof.
  intros Hread Hex.
  destruct (first_malformed lines Hex) as (good & ivs & bad & rest & -> & Hg & Hb).
  destruct (parse_line_malformed bad Hb) as [why Hwhy].
  pose proof (adjust_loop_stops initial good ivs bad rest _ Hg Hwhy) as Hloop.
  fold (repair ivs) in Hloop.
  unfold adjust_overlaps. simpl. rewrite Hread, Hloop. simpl.
  split.
  - by destruct (w _ (WriteLines _ _)).
  - exists good, ivs, bad, rest, why. split_and!; [done..|].
    intros ->. by rewrite <-app_assoc.
Qed.

Lemma adjust_overlaps_fails_fast_witness :
  file_world bad_file [] (ReadLines "sorted_output.bedGraph") = Returned bad_file
  ∧ Exists malformed bad_file
  ∧ (raised (run (file_world bad_file)
               (adjust_overlaps "sorted_output.bedGraph"
                  "adjusted_output.bedGraph") []).2
     ∧ ∃ good ivs bad rest why,
         bad_file = good ++ bad :: rest
         ∧ Forall2 parsed good ivs
         ∧ malformed bad
         ∧ adjust_loop initial bad_file
           = (format <$> repair ivs, Some (ValueError why))
         ∧ (file_world bad_file ([] ++ [ReadLines "sorted_output.bedGraph"])
              (WriteLines "adjusted_output.bedGraph" (format <$> repair ivs))
            = Returned () →
            run (file_world bad_file)
              (adjust_overlaps "sorted_output.bedGraph"
                 "adjusted_output.bedGraph") []
            = ([] ++ [ReadLines "sorted_output.bedGraph";
                      WriteLines "adjusted_output.bedGraph"
                        (format <$> repair ivs)],
               Raised (ValueError why)))).
Proof.
  assert (Exists malformed bad_file) as Hex.
  { apply Exists_cons_tl, Exists_cons_hd. right.
    exists "chr1", "150", "2e2", "3.0". split; [by vm_compute|by right]. }
  split_and!; [done|done|..];
    apply (adjust_overlaps_fails_fast (file_world bad_file) []
             "sorted_output.bedGraph" "adjusted_output.bedGraph" bad_file
             eq_refl Hex).
Defined.

Example bad_file_run :
  run (file_world bad_file)
    (adjust_overlaps "sorted_output.bedGraph" "adjusted_output.bedGraph") []
  = ([ReadLines "sorted_output.bedGraph";
      WriteLines "adjusted_output.bedGraph"
        [format (Interval "chr1" 100 200 "5.0")]],
     Raised (ValueError (InvalidLiteral "2e2"))).
Proof. by vm_compute. Qed.

End DriverFacts.

(** ** More about the sweep *)

Module SweepFacts.
Import Repair RepairFacts.

Lemma reset_nonneg cur c :
  0 ≤ current_end cur → 0 ≤ current_end (reset cur c).
Proof. intros. destruct (reset_end cur c) as [->| ->]; lia. Qed.

Lemma body_nonneg cur iv :
  0 ≤ current_end cur → 0 ≤ current_end (body cur iv).1.
Proof.
  intros He. pose proof (reset_nonneg cur (chrom iv) He) as He1.
  destruct (body cur iv) as [cur' [o|]] eqn:Hb; simpl.
  - apply body_Some in Hb as (_ & -> & Hlt). simpl.
    pose proof (clip_ge (reset cur (chrom iv)) (start iv)). lia.
  - by apply body_None in Hb as (-> & _).
Qed.

Lemma sweep_proper cur ivs :
  0 ≤ current_end cur → Forall proper (sweep cur ivs).
Proof.
  revert cur. induction ivs as [|iv rest IH]; intros cur He; simpl; [constructor|].
  pose proof (body_nonneg cur iv He) as He'.
  pose proof (reset_nonneg cur (chrom iv) He) as He1.
  destruct (body cur iv) as [cur' [o|]] eqn:Hb; simpl in *; [|by apply IH].
  constructor; [|by apply IH].
  apply body_Some in Hb as (-> & _ & Hlt). unfold proper; simpl.
  pose proof (clip_ge (reset cur (chrom iv)) (start iv)). lia.
Qed.

Lemma repair_emits_proper_aux ivs :
  Forall (λ o, 0 ≤ start o ∧ start o < end_ o) (repair ivs).
Proof.
  eapply Forall_impl; [by apply (sweep_proper initial)|].
  intros o Ho. unfold proper in Ho. lia.
Qed.

(** X1: whatever the input (sorted or not, well-formed or not), every
    record the engine emits has [0 <= start < end]: a start below zero is
    clipped to zero at the head of a chromosome and nothing of length zero
    or less gets out. *)
Theorem repair_emits_proper (ivs : list interval) :
  Forall (λ o, 0 ≤ start o ∧ start o < end_ o) (repair ivs).
Proof. apply repair_emits_proper_aux. Qed.

(** *** The sweep is a stream *)

Lemma sweep_app cur l1 l2 :
  sweep cur (l1 ++ l2) = sweep cur l1 ++ sweep (final_cursor cur l1) l2.
Proof.
  revert cur. induction l1 as [|iv rest IH]; intros cur; simpl; [done|].
  destruct (body cur iv) as [cur' [o|]]; simpl; by rewrite IH.
Qed.

Lemma final_cursor_app cur l1 l2 :
  final_cursor cur (l1 ++ l2) = final_cursor (final_cursor cur l1) l2.
Proof. revert cur. induction l1 as [|iv rest IH]; intros cur; simpl; [done|apply IH]. Qed.

(** X2: the engine works as a stream.  The output for an input cut in two
    is the output for the first part followed by the output for the second
    part swept from the cursor the first part left, so reading more input
    never changes what was emitted before; the cursors compose likewise. *)
Theorem sweep_streams (cur : cursor) (l1 l2 : list interval) :
  sweep cur (l1 ++ l2) = sweep cur l1 ++ sweep (final_cursor cur l1) l2
  ∧ final_cursor cur (l1 ++ l2) = final_cursor (final_cursor cur l1) l2
  ∧ repair l1 `prefix_of` repair (l1 ++ l2).
Proof.
  split_and!; [apply sweep_app|apply final_cursor_app|].
  unfold repair. rewrite sweep_app. by eexists.
Qed.

(** *** The fixed points of the sweep *)

Lemma sweep_length cur ivs : (length (sweep cur ivs) ≤ length ivs)%nat.
Proof.
  destruct (sweep_moved cur ivs) as (sel & Hsub & Hall).
  rewrite (Forall2_length _ _ _ Hall). by apply sublist_length.
Qed.

Lemma sweep_fixed_iff cur ivs :
  0 ≤ current_end cur →
  sweep cur ivs = ivs ↔ Forall proper ivs ∧ Sorted before ivs ∧ head_clear cur ivs.
Proof.
  revert cur. induction ivs as [|x rest IH]; intros cur He; simpl.
  { split; [intros _; split_and!; constructor|done]. }
  pose proof (reset_nonneg cur (chrom x) He) as He1.
  pose proof (clip_ge (reset cur (chrom x)) (start x)) as [Hc1 Hc2].
  split.
  - intros Hfix. destruct (body cur x) as [cur' [o|]] eqn:Hb.
    2: { pose proof (sweep_length cur' rest) as Hlen. rewrite Hfix in Hlen.
         simpl in Hlen. lia. }
    injection Hfix as -> Hrest.
    apply body_Some in Hb as (Hx & -> & Hlt).
    assert (clip (reset cur (chrom x)) (start x) = start x) as Hclip
      by (by rewrite Hx at 3).
    rewrite Hclip in *.
    apply IH in Hrest as (Hall & Hs & Hhd); [|simpl; lia].
    split_and!.
    + constructor; [unfold proper; lia|done].
    + constructor; [done|]. destruct rest as [|y rest']; constructor.
      intros Heq. apply Hhd; simpl. by rewrite Heq.
    + intros Hc. by rewrite reset_same in Hc1.
  - intros (Hall & Hs & Hhd).
    apply Forall_cons in Hall as [Hx Hall]. apply Sorted_inv in Hs as [Hs Hrel].
    unfold proper in Hx.
    assert (clip (reset cur (chrom x)) (start x) = start x) as Hclip.
    { apply clip_id.
      destruct (decide (current_chrom cur = Some (chrom x))) as [Hc|Hc].
      - rewrite reset_same by done. by apply Hhd.
      - rewrite reset_other by done. simpl. lia. }
    unfold body. rewrite Hclip.
    destruct (Z.ltb_spec (start x) (end_ x)); [|lia].
    rewrite interval_eta, reset_chrom. f_equal.
    apply IH; [simpl; lia|]. split_and!; [done..|].
    destruct rest as [|y rest']; [done|]. simpl.
    apply HdRel_inv in Hrel. intros [= Heq]. by apply Hrel.
Qed.

(** X3: the inputs the engine returns unchanged are exactly those whose
    records all have [0 <= start < end] and in which each record that
    follows one of the same chromosome starts at or after its end. *)
Theorem repair_fixed_points (ivs : list interval) :
  repair ivs = ivs ↔
  Forall (λ o, 0 ≤ start o ∧ start o < end_ o) ivs ∧ Sorted before ivs.
Proof.
  unfold repair. rewrite sweep_fixed_iff by done.
  assert (Forall proper ivs ↔ Forall (λ o, 0 ≤ start o ∧ start o < end_ o) ivs)
    as ->.
  { apply Forall_iff. intros o. unfold proper. lia. }
  assert (head_clear initial ivs) by (by destruct ivs).
  tauto.
Qed.

(** *** What the output covers *)

Lemma sweep_source cur ivs o :
  o ∈ sweep cur ivs → ∃ x, x ∈ ivs ∧ moved o x.
Proof.
  destruct (sweep_moved cur ivs) as (sel & Hsub & Hall). intros Ho.
  apply list_elem_of_lookup in Ho as [i Hi].
  destruct (Forall2_lookup_l _ _ _ _ _ Hall Hi) as (x & Hx & Hm).
  exists x. split; [|done].
  eapply elem_of_sublist; [|done]. by eapply list_elem_of_lookup_2.
Qed.

Lemma sorted_ahead iv rest :
  Forall (key_le iv) rest → ∀ e, ahead (Cursor (Some (chrom iv)) e) rest.
Proof.
  intros Hhd e c x [= <-] Hx. rewrite Forall_forall in Hhd. by apply Hhd.
Qed.

Lemma body_chrom cur iv : current_chrom (body cur iv).1 = Some (chrom iv).
Proof.
  destruct (body cur iv) as [cur' [o|]] eqn:Hb; simpl.
  - by apply body_Some in Hb as (_ & -> & _).
  - apply body_None in Hb as (-> & _). apply reset_chrom.
Qed.

Lemma body_ahead cur iv rest :
  Forall (key_le iv) rest → ahead (body cur iv).1 rest.
Proof.
  intros Hhd c x Hc Hx. rewrite body_chrom in Hc. injection Hc as <-.
  rewrite Forall_forall in Hhd. by apply Hhd.
Qed.

Lemma sweep_covers_only cur ivs c p :
  StronglySorted key_le ivs → ahead cur ivs → 0 ≤ current_end cur →
  Exists (covers c p) (sweep cur ivs) →
  0 ≤ p ∧ ¬ (current_chrom cur = Some c ∧ p < current_end cur)
  ∧ Exists (covers c p) ivs.
Proof.
  intros Hs Ha He Hex. apply Exists_exists in Hex as (o & Ho & <- & Hp).
  destruct (sweep_sound cur ivs Hs Ha He) as [Hall _].
  rewrite Forall_forall in Hall. destruct (Hall o Ho) as (_ & H0 & Hclear).
  destruct (sweep_source cur ivs o Ho) as (x & Hx & Hc & Hend & _ & Hst).
  split_and!; [lia| |].
  - intros [Hcur Hlt]. specialize (Hclear Hcur). lia.
  - apply Exists_exists. exists x. split; [done|]. unfold covers. split; [done|lia].
Qed.

Lemma sweep_covers_all cur ivs c p :
  StronglySorted key_le ivs → 0 ≤ p →
  ¬ (current_chrom cur = Some c ∧ p < current_end cur) →
  Exists (covers c p) ivs → Exists (covers c p) (sweep cur ivs).
Proof.
  revert cur. induction ivs as [|iv rest IH]; intros cur Hs H0 Hcur Hex.
  { by apply Exists_nil in Hex. }
  apply StronglySorted_inv in Hs as [Hs Hhd]. simpl.
  pose proof (clip_ge (reset cur (chrom iv)) (start iv)) as [Hc1 Hc2].
  assert (current_chrom cur = Some (chrom iv) ∨
          reset cur (chrom iv) = Cursor (Some (chrom iv)) 0) as Hreset.
  { destruct (decide (current_chrom cur = Some (chrom iv))); [by left|].
    right. by apply reset_other. }
  destruct (decide (covers c p iv)) as [[<- Hp]|Hno].
  - assert (clip (reset cur (chrom iv)) (start iv) ≤ p) as Hle.
    { unfold clip. destruct (Z.ltb_spec (start iv) (current_end (reset cur (chrom iv))));
        [|lia].
      destruct Hreset as [Hc| ->]; [|simpl; lia].
      rewrite reset_same by done.
      assert (¬ p < current_end cur) by (intros ?; by apply Hcur). lia. }
    unfold body.
    destruct (Z.ltb_spec (clip (reset cur (chrom iv)) (start iv)) (end_ iv)); [|lia].
    apply Exists_cons_hd. unfold covers; simpl. split; [done|lia].
  - apply Exists_cons in Hex as [Hex|Hex]; [done|].
    assert (Exists (covers c p) (sweep (body cur iv).1 rest)) as Hrest.
    { apply IH; [done..| |done].
      intros [Hc Hlt]. rewrite body_chrom in Hc. injection Hc as <-.
      destruct (body cur iv) as [cur' [o|]] eqn:Hb; simpl in Hlt.
      - apply body_Some in Hb as (_ & -> & _). simpl in Hlt.
        apply Exists_exists in Hex as (x & Hx & Hcx & Hpx).
        rewrite Forall_forall in Hhd. destruct (Hhd x Hx) as [_ Hst].
        specialize (Hst ltac:(done)). apply Hno. unfold covers. split; [done|lia].
      - apply body_None in Hb as (-> & _).
        destruct Hreset as [Hc|Hr].
        + rewrite reset_same in Hlt by done. by apply Hcur.
        + rewrite Hr in Hlt. simpl in Hlt. lia. }
    destruct (body cur iv) as [cur' [o|]]; simpl in *; [by apply Exists_cons_tl|done].
Qed.

(** X4: on an input sorted by (chromosome, start) the engine keeps the
    coverage: a position of a chromosome lies in an emitted record exactly
    when it is not negative and lies in an input record.  Clipping and
    dropping only remove what an earlier record already covers (and the
    part of a record below zero). *)
Theorem repair_keeps_coverage (ivs : list interval) :
  sorted_input ivs →
  ∀ c p, Exists (covers c p) (repair ivs) ↔ 0 ≤ p ∧ Exists (covers c p) ivs.
Proof.
  intros Hs c p.
  assert (StronglySorted key_le ivs) as Hss
    by (by apply Sorted_StronglySorted; [apply _|]).
  split.
  - intros Hex.
    by apply sweep_covers_only in Hex as (? & _ & ?); [|done|apply ahead_initial|].
  - intros [H0 Hex]. apply sweep_covers_all; [done..| |done]. by intros [? _].
Qed.

Lemma repair_keeps_coverage_witness :
  sorted_input sample
  ∧ ∀ c p, Exists (covers c p) (repair sample) ↔ 0 ≤ p ∧ Exists (covers c p) sample.
Proof.
  split.
  - apply (bool_decide_unpack _). by vm_compute.
  - apply (repair_keeps_coverage sample).
    apply (bool_decide_unpack _). by vm_compute.
Defined.

Lemma sweep_earliest cur ivs c p o :
  StronglySorted key_le ivs → ahead cur ivs → 0 ≤ current_end cur →
  o ∈ sweep cur ivs → covers c p o →
  ∃ pre x post,
    ivs = pre ++ x :: post ∧ Forall (λ y, ¬ covers c p y) pre
    ∧ covers c p x ∧ moved o x.
Proof.
  revert cur. induction ivs as [|iv rest IH]; intros cur Hs Ha He Ho Hcov.
  { by apply elem_of_nil in Ho. }
  apply StronglySorted_inv in Hs as [Hs Hhd]. simpl in Ho.
  pose proof (body_nonneg cur iv He) as He'.
  pose proof (body_ahead cur iv rest Hhd) as Ha'.
  pose proof (clip_ge (reset cur (chrom iv)) (start iv)) as [Hc1 Hc2].
  assert (o ∈ sweep (body cur iv).1 rest →
          ∃ pre x post, iv :: rest = pre ++ x :: post
            ∧ Forall (λ y, ¬ covers c p y) pre ∧ covers c p x ∧ moved o x) as Hlater.
  { intros Ho'.
    destruct (sweep_sound _ rest Hs Ha' He') as [Hall _].
    rewrite Forall_forall in Hall. destruct (Hall o Ho') as (_ & _ & Hclear).
    destruct (IH _ Hs Ha' He' Ho' Hcov) as (pre & x & post & Heq & Hpre & Hx & Hm).
    exists (iv :: pre), x, post. split_and!; [by rewrite Heq| |done..].
    constructor; [|done]. intros [Hci Hpi].
    destruct Hcov as [Hco Hpo].
    unfold clear_of in Hclear. rewrite body_chrom in Hclear.
    specialize (Hclear ltac:(congruence)).
    destruct (body cur iv) as [cur' [o1|]] eqn:Hb; simpl in *.
    - apply body_Some in Hb as (_ & -> & _). simpl in Hclear. lia.
    - apply body_None in Hb as (-> & Hge).
      unfold clip in Hge.
      destruct (Z.ltb_spec (start iv) (current_end (reset cur (chrom iv)))); lia. }
  destruct (body cur iv) as [cur' [o1|]] eqn:Hb; simpl in *; [|by apply Hlater].
  apply elem_of_cons in Ho as [->|Ho]; [|by apply Hlater].
  apply body_Some in Hb as (-> & _ & Hlt).
  exists [], iv, rest. destruct Hcov as [Hco Hpo]; simpl in *.
  split_and!; [done|constructor| |].
  - unfold covers. split; [done|lia].
  - unfold moved; simpl. split_and!; [done..|lia].
Qed.

(** X5: the earlier interval wins.  On a sorted input, an emitted record
    that covers a position carries the value and the end of the first
    input record, in file order, that covers this position. *)
Theorem repair_earliest_wins (ivs : list interval) (c : string) (p : Z)
    (o : interval) :
  sorted_input ivs → o ∈ repair ivs → covers c p o →
  ∃ pre x post,
    ivs = pre ++ x :: post ∧ Forall (λ y, ¬ covers c p y) pre
    ∧ covers c p x ∧ value o = value x ∧ end_ o = end_ x.
Proof.
  intros Hs Ho Hcov.
  destruct (sweep_earliest initial ivs c p o) as (pre & x & post & ? & ? & ? & Hm);
    [by apply Sorted_StronglySorted; [apply _|]|apply ahead_initial|done..|].
  destruct Hm as (_ & ? & ? & _). by exists pre, x, post.
Qed.

Lemma repair_earliest_wins_witness :
  sorted_input sample
  ∧ Interval "chr1" 200 250 "3.0" ∈ repair sample
  ∧ covers "chr1" 210 (Interval "chr1" 200 250 "3.0")
  ∧ ∃ pre x post,
      sample = pre ++ x :: post ∧ Forall (λ y, ¬ covers "chr1" 210 y) pre
      ∧ covers "chr1" 210 x
      ∧ value (Interval "chr1" 200 250 "3.0") = value x
      ∧ end_ (Interval "chr1" 200 250 "3.0") = end_ x.
Proof.
  assert (sorted_input sample) as Hs
    by (apply (bool_decide_unpack _); by vm_compute).
  assert (Interval "chr1" 200 250 "3.0" ∈ repair sample) as Ho
    by (apply (bool_decide_unpack _); by vm_compute).
  assert (covers "chr1" 210 (Interval "chr1" 200 250 "3.0")) as Hc
    by (apply (bool_decide_unpack _); by vm_compute).
  split_and!; [done..|].
  exact (repair_earliest_wins sample "chr1" 210 _ Hs Ho Hc).
Defined.

(** *** Grouping by chromosome is what disjointness needs *)

Lemma contiguous_tail c cs : contiguous (c :: cs) → contiguous cs.
Proof.
  intros H i j k d Hij Hjk Hi Hk.
  apply (H (S i) (S j) (S k) d); [lia|lia|done|done].
Qed.

Lemma contiguous_skip c d cs : contiguous (c :: d :: cs) → c ∈ cs → d = c.
Proof.
  intros H Hc. apply list_elem_of_lookup in Hc as [k Hk].
  assert ((c :: d :: cs) !! 1%nat = Some c) as Hd; [|by injection Hd].
  apply (H 0%nat 1%nat (S (S k)) c); [lia|lia|done|done].
Qed.

Lemma upcoming_body cur iv rest :
  contiguous (upcoming cur (iv :: rest)) →
  contiguous (upcoming (body cur iv).1 rest).
Proof.
  unfold upcoming. rewrite body_chrom.
  destruct (current_chrom cur); [apply contiguous_tail|done].
Qed.

Lemma upcoming_same cur iv rest x :
  contiguous (upcoming cur (iv :: rest)) → x ∈ rest →
  current_chrom cur = Some (chrom x) → chrom iv = chrom x.
Proof.
  unfold upcoming. intros H Hx Hc. rewrite Hc in H. simpl in H.
  apply (contiguous_skip _ _ _ H). apply list_elem_of_fmap. by exists x.
Qed.

Lemma sweep_sound_grouped cur ivs :
  contiguous (upcoming cur ivs) → 0 ≤ current_end cur →
  Forall (settled cur) (sweep cur ivs) ∧ StronglySorted before (sweep cur ivs).
Proof.
  revert cur. induction ivs as [|iv rest IH]; intros cur Hup He; simpl.
  { split; constructor. }
  pose proof (body_nonneg cur iv He) as He'.
  pose proof (upcoming_body cur iv rest Hup) as Hup'.
  pose proof (body_chrom cur iv) as Hchrom.
  pose proof (clip_ge (reset cur (chrom iv)) (start iv)) as [Hc1 Hc2].
  pose proof (reset_nonneg cur (chrom iv) He) as He1.
  destruct (IH _ Hup' He') as [Hall Hsorted].
  assert (Forall (settled cur) (sweep (body cur iv).1 rest)) as Hrest.
  { rewrite Forall_forall in Hall |- *. intros o' Ho'.
    destruct (Hall o' Ho') as (Hwf & H0 & Hclear). split_and!; [done..|].
    intros Hc. destruct (sweep_chrom _ _ _ Ho') as (x & Hx & Hxo).
    assert (chrom iv = chrom o') as Heq.
    { rewrite <-Hxo. eapply upcoming_same; [done..|]. by rewrite Hxo. }
    assert (reset cur (chrom iv) = cur) as Hr by (apply reset_same; by rewrite Heq).
    unfold clear_of in Hclear. rewrite Hchrom, Heq in Hclear.
    specialize (Hclear eq_refl). rewrite Hr in *.
    destruct (body cur iv) as [cur' [o|]] eqn:Hb; simpl in *.
    - apply body_Some in Hb as (_ & -> & Hlt). rewrite Hr in Hlt. simpl in *. lia.
    - apply body_None in Hb as (-> & _). by rewrite Hr in Hclear. }
  destruct (body cur iv) as [cur' [o|]] eqn:Hb; simpl in *; [|done].
  apply body_Some in Hb as (-> & -> & Hlt).
  split.
  - constructor; [|done].
    unfold settled, well_formed, clear_of. split_and!; simpl; [done|lia|].
    intros Hc. by rewrite reset_same in Hc1 |- *.
  - constructor; [done|].
    rewrite Forall_forall in Hall |- *. intros o' Ho' Heq; simpl in *.
    destruct (Hall o' Ho') as (_ & _ & Hclear). apply Hclear; simpl.
    by rewrite Heq.
Qed.

(** An input sorted by (chromosome, start) is grouped by chromosome. *)
Lemma sorted_grouped ivs : sorted_input ivs → grouped ivs.
Proof.
  intros Hs. apply Sorted_StronglySorted in Hs; [|apply _].
  intros i j k c Hij Hjk Hi Hk.
  apply list_lookup_fmap_Some in Hi as (a & -> & Ha).
  apply list_lookup_fmap_Some in Hk as (b & Hab & Hb).
  assert (is_Some (ivs !! j)) as [x Hx].
  { apply lookup_lt_is_Some. apply lookup_lt_Some in Hb. lia. }
  apply list_lookup_fmap_Some. exists x. split; [|done].
  destruct (decide (i = j)) as [->|Hne]; [congruence|].
  destruct (decide (j = k)) as [->|Hne']; [congruence|].
  destruct (StronglySorted_lookup _ _ i j a x Hs ltac:(lia) Ha Hx) as [Hax _].
  destruct (StronglySorted_lookup _ _ j k x b Hs ltac:(lia) Hx Hb) as [Hxb _].
  apply (anti_symm String.le); [done|by rewrite Hab].
Qed.

(** X6: disjointness does not need the starts to be sorted.  When the
    records of each chromosome stand together in the input, in whatever
    order, every emitted record has [0 <= start < end] and two emitted
    records of one chromosome do not overlap, the earlier one ending at or
    before the start of the later one. *)
Theorem repair_disjoint_when_grouped (ivs : list interval) :
  grouped ivs →
  Forall (λ o, 0 ≤ start o ∧ start o < end_ o) (repair ivs)
  ∧ ∀ i j a b, (i < j)%nat →
      repair ivs !! i = Some a → repair ivs !! j = Some b →
      chrom a = chrom b → end_ a ≤ start b ∧ start a < start b.
Proof.
  intros Hg. destruct (sweep_sound_grouped initial ivs) as [Hall Hsorted];
    [done|done|].
  fold (repair ivs) in Hall, Hsorted.
  split; [apply repair_emits_proper_aux|].
  intros i j a b Hij Hi Hj Heq.
  pose proof (StronglySorted_lookup _ _ _ _ _ _ Hsorted Hij Hi Hj Heq).
  rewrite Forall_forall in Hall.
  destruct (Hall a) as (Hwf & _); [by eapply list_elem_of_lookup_2|].
  unfold well_formed in Hwf. lia.
Qed.

Lemma grouped_unordered_sample : grouped unordered_sample.
Proof.
  intros i j k c Hij Hjk Hi Hk.
  assert (k < 5)%nat by (apply lookup_lt_Some in Hk; simpl in Hk; lia).
  destruct i as [|[|[|[|[|?]]]]], j as [|[|[|[|[|?]]]]], k as [|[|[|[|[|?]]]]];
    try lia; simpl in *; congruence.
Qed.

Lemma repair_disjoint_when_grouped_witness :
  grouped unordered_sample
  ∧ (Forall (λ o, 0 ≤ start o ∧ start o < end_ o) (repair unordered_sample)
     ∧ ∀ i j a b, (i < j)%nat →
         repair unordered_sample !! i = Some a →
         repair unordered_sample !! j = Some b →
         chrom a = chrom b → end_ a ≤ start b ∧ start a < start b).
Proof.
  split; [apply grouped_unordered_sample|].
  apply (repair_disjoint_when_grouped unordered_sample).
  apply grouped_unordered_sample.
Defined.

(** *** The output is sorted again *)

Lemma StronglySorted_from_lookup {A} (R : relation A) l :
  (∀ i j a b, (i < j)%nat → l !! i = Some a → l !! j = Some b → R a b) →
  StronglySorted R l.
Proof.
  induction l as [|x l IH]; intros H; constructor.
  - apply IH. intros i j a b Hij Hi Hj. by apply (H (S i) (S j)); [lia|..].
  - apply Forall_forall. intros y Hy. apply list_elem_of_lookup in Hy as [j Hj].
    by apply (H 0%nat (S j)); [lia|..].
Qed.

Lemma sublist_lookup_mono {A} (l1 l2 : list A) :
  l1 `sublist_of` l2 →
  ∀ i j a b, (i < j)%nat → l1 !! i = Some a → l1 !! j = Some b →
    ∃ i' j', (i' < j')%nat ∧ l2 !! i' = Some a ∧ l2 !! j' = Some b.
Proof.
  induction 1 as [|x l1 l2 Hsub IH|x l1 l2 Hsub IH]; intros i j a b Hij Hi Hj.
  - done.
  - destruct j as [|j]; [lia|]. destruct i as [|i]; simpl in *.
    + injection Hi as ->.
      assert (b ∈ l2) as Hb.
      { eapply elem_of_sublist; [|done]. by eapply list_elem_of_lookup_2. }
      apply list_elem_of_lookup in Hb as [j' Hj']. exists 0%nat, (S j').
      split_and!; [lia|done..].
    + destruct (IH i j a b ltac:(lia) Hi Hj) as (i' & j' & ? & ? & ?).
      exists (S i'), (S j'). split_and!; [lia|done..].
  - destruct (IH i j a b Hij Hi Hj) as (i' & j' & ? & ? & ?).
    exists (S i'), (S j'). split_and!; [lia|done..].
Qed.

Lemma repair_sorted_aux ivs : sorted_input ivs → StronglySorted key_le (repair ivs).
Proof.
  intros Hs. destruct (repair_sound ivs Hs) as [Hall Hbefore].
  apply Sorted_StronglySorted in Hs; [|apply _].
  destruct (sweep_moved initial ivs) as (sel & Hsub & Hm). fold (repair ivs) in Hm.
  apply StronglySorted_from_lookup. intros i j a b Hij Hi Hj.
  destruct (Forall2_lookup_l _ _ _ _ _ Hm Hi) as (x & Hx & Hcx & _).
  destruct (Forall2_lookup_l _ _ _ _ _ Hm Hj) as (y & Hy & Hcy & _).
  destruct (sublist_lookup_mono sel ivs Hsub i j x y Hij Hx Hy)
    as (i' & j' & Hij' & Hx' & Hy').
  destruct (StronglySorted_lookup _ _ _ _ _ _ Hs Hij' Hx' Hy') as [Hle _].
  split; [by rewrite Hcx, Hcy|].
  intros Heq.
  pose proof (StronglySorted_lookup _ _ _ _ _ _ Hbefore Hij Hi Hj Heq).
  rewrite Forall_forall in Hall.
  destruct (Hall a) as (Hwf & _); [by eapply list_elem_of_lookup_2|].
  unfold well_formed in Hwf. lia.
Qed.

(** X7: the output is sorted like the input.  On an input sorted
    ascending by (chromosome, start) the emitted records are again sorted
    ascending by (chromosome, start), although starts have moved: the
    encoder that follows gets what it requires. *)
Theorem repair_stays_sorted (ivs : list interval) :
  sorted_input ivs → sorted_input (repair ivs).
Proof.
  intros Hs. apply StronglySorted_Sorted. by apply repair_sorted_aux.
Qed.

Lemma repair_stays_sorted_witness :
  sorted_input sample ∧ sorted_input (repair sample).
Proof.
  split.
  - apply (bool_decide_unpack _). by vm_compute.
  - apply (repair_stays_sorted sample).
    apply (bool_decide_unpack _). by vm_compute.
Defined.

End SweepFacts.

(** ** More about the loop over lines *)

Module LoopFacts.
Import Repair RepairFacts TextFacts LineFacts SweepFacts.

Lemma no_break_app s t : no_break (s +:+ t) = no_break s && no_break t.
Proof.
  induction s as [|c s IH]; [done|].
  rewrite append_cons. simpl. rewrite IH. by rewrite andb_assoc.
Qed.

Lemma no_space_no_break s : Text.no_space s = true → no_break s = true.
Proof.
  induction s as [|c s IH]; [done|]. simpl.
  intros [Hc Hs]%andb_true_iff. rewrite IH by done.
  unfold is_break. repeat case_bool_decide; subst; simpl; try done;
    by vm_compute in Hc.
Qed.

Lemma format_one_line o : tokens o → one_line (format o).
Proof.
  intros [[_ Hc] [_ Hv]].
  exists (chrom o +:+ Text.tab +:+ Text.str (start o) +:+ Text.tab +:+
          Text.str (end_ o) +:+ Text.tab +:+ value o).
  split.
  - unfold format. by rewrite !append_assoc.
  - destruct (str_field (start o)) as [_ Hs].
    destruct (str_field (end_ o)) as [_ He].
    rewrite !no_break_app.
    rewrite (no_space_no_break (chrom o)), (no_space_no_break (value o)),
      (no_space_no_break (Text.str (start o))),
      (no_space_no_break (Text.str (end_ o))) by done.
    done.
Qed.

Lemma adjust_loop_written cur lines :
  ∃ ivs, (adjust_loop cur lines).1 = format <$> sweep cur ivs ∧ Forall tokens ivs.
Proof.
  revert cur. induction lines as [|line rest IH]; intros cur; simpl.
  { by exists []. }
  destruct (parse_line line) as [e|iv] eqn:Hp; simpl.
  { by exists []. }
  destruct (body cur iv) as [cur' o] eqn:Hb.
  destruct (IH cur') as (ivs & Hw & Htok).
  destruct (adjust_loop cur' rest) as [written err]; simpl in *.
  exists (iv :: ivs). simpl. rewrite Hb.
  split; [|constructor; [by apply parse_line_inr in Hp as [? _]|done]].
  destruct o; simpl; by rewrite Hw.
Qed.

(** X8: whatever the input, and also when the loop ends with an exception,
    every string the loop has written is one line of text that reads back,
    through the same parser, as a record with [0 <= start < end], and
    formatting that record gives the line again. *)
Theorem written_lines_read_back (lines : list string) :
  Forall (λ chunk, one_line chunk ∧ reads_back chunk)
    (adjust_loop initial lines).1.
Proof.
  destruct (adjust_loop_written initial lines) as (ivs & -> & Htok).
  pose proof (sweep_tokens initial ivs Htok) as Hout.
  pose proof (sweep_proper initial ivs ltac:(done)) as Hprop.
  apply Forall_fmap. rewrite Forall_forall in Hout, Hprop |- *.
  intros o Ho. simpl. split.
  - apply format_one_line. by apply Hout.
  - exists o. split_and!; [apply parse_format; by apply Hout|by apply Hprop|done].
Qed.

Lemma parse_line_cases line :
  (malformed line ∧ ∃ why, parse_line line = inl (ValueError why))
  ∨ (¬ malformed line ∧ ∃ iv, parse_line line = inr iv).
Proof.
  destruct (parse_line line) as [e|iv] eqn:Hp.
  - left. unfold malformed, parse_line in *.
    destruct (Text.split (Text.strip line)) as [|c [|s [|x [|v [|]]]]];
      try (injection Hp as <-; split; [by left|by eexists]).
    destruct (Text.int s) eqn:Hs.
    + destruct (Text.int x) eqn:Hx; [done|].
      injection Hp as <-. split; [|by eexists]. right. exists c, s, x, v. by auto.
    + injection Hp as <-. split; [|by eexists]. right. exists c, s, x, v. by auto.
  - right. split; [|by eexists].
    intros Hbad. apply parse_line_malformed in Hbad as [why Hwhy]. congruence.
Qed.

(** X9: the loop fails on malformed lines only, and with [ValueError]
    only.  It ends without exception exactly when every line has four
    fields with a start and an end that [int] accepts; a start that is not
    below the end, a negative coordinate, a value that is no number or an
    unsorted file never make it raise. *)
Theorem adjust_loop_fails_only_on_malformed (cur : cursor)
    (lines : list string) :
  ((adjust_loop cur lines).2 = None ↔ Forall (λ line, ¬ malformed line) lines)
  ∧ ∀ e, (adjust_loop cur lines).2 = Some e → ∃ why, e = ValueError why.
Proof.
  revert cur. induction lines as [|line rest IH]; intros cur; simpl.
  { split; [by split|done]. }
  destruct (parse_line_cases line) as [[Hbad [why ->]]|[Hgood [iv ->]]]; simpl.
  - split; [|intros e [= <-]; by eexists].
    split; [done|]. intros Hall. by apply Forall_cons in Hall as [? _].
  - destruct (body cur iv) as [cur' o].
    destruct (IH cur') as [Hiff Herr].
    destruct (adjust_loop cur' rest) as [written err]; simpl in *.
    split; [|done]. rewrite Hiff. rewrite Forall_cons. tauto.
Qed.

End LoopFacts.

(** ** More about the driver *)

Module PipelineFacts.
Import Repair Driver RepairFacts TextFacts LineFacts DriverFacts SweepFacts.

#[local] Arguments Text.split : simpl never.
#[local] Arguments Text.strip : simpl never.

(** *** The two loops over lines of [convert_bigwig] *)

Lemma filter_loop_clean target_chroms lines :
  Forall (λ line, ¬ blank line) lines →
  filter_loop target_chroms lines = (List.filter (keeps target_chroms) lines, None).
Proof.
  induction 1 as [|line rest Hline _ IH]; [done|]. simpl.
  unfold keeps, blank in *. destruct (Text.split line) as [|c fields]; [done|].
  rewrite IH. by case_bool_decide.
Qed.

Lemma filter_loop_stops target_chroms good bad rest :
  Forall (λ line, ¬ blank line) good → blank bad →
  filter_loop target_chroms (good ++ bad :: rest)
  = (List.filter (keeps target_chroms) good, Some IndexError).
Proof.
  intros Hgood Hbad.
  induction Hgood as [|line good Hline _ IH]; simpl.
  { unfold blank in Hbad. by rewrite Hbad. }
  unfold keeps, blank in *. destruct (Text.split line) as [|c fields]; [done|].
  rewrite IH. by case_bool_decide.
Qed.

(** X10: the chromosome filter of the driver (lines 110-114).  On lines
    that all have a field it writes, unchanged and in order, exactly the
    lines whose first field is a chromosome of the sizes table; a line that
    is empty or white space only ends the loop with [IndexError], the lines
    kept before it being written and nothing after it. *)
Theorem filter_loop_keeps_whitelisted (target_chroms : gset string)
    (lines : list string) :
  (Forall (λ line, ¬ blank line) lines →
   filter_loop target_chroms lines
   = (List.filter (keeps target_chroms) lines, None))
  ∧ (∀ good bad rest,
       lines = good ++ bad :: rest →
       Forall (λ line, ¬ blank line) good → blank bad →
       filter_loop target_chroms lines
       = (List.filter (keeps target_chroms) good, Some IndexError))
  ∧ (filter_loop target_chroms lines).1 `sublist_of` lines
  ∧ Forall (λ line, ∃ c fields, Text.split line = c :: fields ∧ c ∈ target_chroms)
      (filter_loop target_chroms lines).1.
Proof.
  split_and!.
  - apply filter_loop_clean.
  - intros good bad rest -> Hgood Hbad. by apply filter_loop_stops.
  - induction lines as [|line rest IH]; simpl; [done|].
    destruct (Text.split line) as [|c fields]; [apply sublist_nil_l|].
    destruct (filter_loop target_chroms rest) as [written err]; simpl in *.
    case_bool_decide; by constructor.
  - induction lines as [|line rest IH]; simpl; [done|].
    destruct (Text.split line) as [|c fields] eqn:Hs; [done|].
    destruct (filter_loop target_chroms rest) as [written err]; simpl in *.
    case_bool_decide; [|done]. constructor; [|done]. by exists c, fields.
Qed.

Lemma load_chroms_clean lines acc :
  Forall (λ line, ¬ blank line) lines →
  ∃ S, load_chroms lines acc = inr S
       ∧ ∀ c, c ∈ S ↔ c ∈ first_fields lines ∨ c ∈ acc.
Proof.
  intros H. revert acc. induction H as [|line rest Hline _ IH]; intros acc.
  { exists acc. split; [done|]. intros c. unfold first_fields. simpl.
    rewrite elem_of_nil. tauto. }
  simpl. rewrite split_strip. unfold blank in Hline.
  destruct (Text.split line) as [|c0 fields] eqn:Hs; [done|].
  destruct (IH ({[c0]} ∪ acc)) as (S & -> & HS).
  exists S. split; [done|]. intros c. rewrite HS.
  unfold first_fields. simpl.
  rewrite elem_of_cons, elem_of_union, elem_of_singleton. tauto.
Qed.

Lemma load_chroms_blank lines acc :
  Exists blank lines → load_chroms lines acc = inl IndexError.
Proof.
  intros H. revert acc. induction H as [line rest Hline|line rest _ IH];
    intros acc; simpl; rewrite split_strip.
  - unfold blank in Hline. by rewrite Hline.
  - by destruct (Text.split line).
Qed.

(** X11: the loading of the sizes table (lines 91-95).  When every line has
    a field the set of target chromosomes is exactly the set of the first
    fields of the lines, in whatever order and however often they occur;
    when some line is empty or white space only (a blank last line is
    enough) the loading ends with [IndexError] and no set. *)
Theorem load_chroms_collects_first_fields (lines : list string) :
  (Forall (λ line, ¬ blank line) lines →
   ∃ S, load_chroms lines ∅ = inr S ∧ ∀ c, c ∈ S ↔ c ∈ first_fields lines)
  ∧ (Exists blank lines → load_chroms lines ∅ = inl IndexError).
Proof.
  split; [|apply load_chroms_blank].
  intros H. destruct (load_chroms_clean lines ∅ H) as (S & HS & Hin).
  exists S. split; [done|]. intros c. rewrite Hin, elem_of_empty. tauto.
Qed.

(** *** [adjust_overlaps] as a whole *)

Lemma well_formed_lines_parse lines :
  Forall (λ line, ¬ malformed line) lines → ∃ ivs, Forall2 parsed lines ivs.
Proof.
  induction 1 as [|line rest Hline _ [ivs IH]]; [by exists []|].
  destruct (parse_line line) as [e|iv] eqn:Hp.
  - by apply parse_line_inl in Hp as [? _].
  - exists (iv :: ivs). by constructor.
Qed.


(** *** What a run may do *)

Lemma run_only {A} (P : action → Prop) (p : prog A) :
  only P p → ∀ w hist, ∃ t, (run w p hist).1 = hist ++ t ∧ Forall P t.
Proof.
  induction 1 as [x|e|a k Ha _ IH]; intros w hist; simpl.
  - exists []. by rewrite app_nil_r.
  - exists []. by rewrite app_nil_r.
  - destruct (w hist a) as [r|e].
    + destruct (IH r w (hist ++ [a])) as (t & -> & Ht).
      exists (a :: t). rewrite <-app_assoc. split; [done|by constructor].
    + exists [a]. split; [done|by repeat constructor].
Qed.

Lemma only_bind {A B} P (p : prog A) (f : A → prog B) :
  only P p → (∀ x, only P (f x)) → only P (p ≫= f).
Proof.
  intros Hp Hf. induction Hp as [x|e|a k Ha _ IH]; simpl.
  - apply Hf.
  - constructor.
  - by constructor.
Qed.

Lemma only_call P (a : action) : P a → only P (call a).
Proof. intros Ha. constructor; [done|]. intros r. constructor. Qed.

Lemma only_for {X} P (xs : list X) (f : X → prog unit) :
  (∀ x, x ∈ xs → only P (f x)) → only P (for_ xs f).
Proof.
  induction xs as [|x xs IH]; intros Hf; [constructor|]. simpl.
  apply only_bind; [apply Hf; by left|].
  intros _. apply IH. intros y Hy. apply Hf. by right.
Qed.

Lemma only_reraise P err : only P (reraise err).
Proof. destruct err; constructor. Qed.

Lemma only_mono {A} (P Q : action → Prop) (p : prog A) :
  (∀ a, P a → Q a) → only P p → only Q p.
Proof. intros HPQ. induction 1; constructor; auto. Qed.

Ltac only_step :=
  match goal with
  | |- only _ (call ?a) => apply (only_call _ a)
  | |- only _ (_ ≫= _) => apply only_bind
  | |- only _ (for_ _ _) => apply only_for
  | |- only _ (reraise _) => apply only_reraise
  | |- only _ (Ret _) => constructor
  | |- only _ (Raise _) => constructor
  | |- only _ (match ?x with _ => _ end) => destruct x
  | |- only _ (let '(_, _) := ?x in _) => destruct x
  | |- ∀ _, _ => intros
  end.

Lemma assemblies_cases s t :
  valid_assemblies s t →
  (s = "hg19" ∧ t = "hg38") ∨ (s = "hg38" ∧ t = "hg19").
Proof.
  intros (Hs & Ht & Hne). unfold assemblies in *.
  rewrite !elem_of_cons, elem_of_nil in Hs, Ht.
  destruct Hs as [->|[->|[]]], Ht as [->|[->|[]]]; auto; done.
Qed.

Lemma convert_bigwig_cases i o s t c :
  (∃ msg, convert_bigwig i o s t c = Raise (ValueError (Message msg)))
  ∨ (s = "hg19" ∧ t = "hg38") ∨ (s = "hg38" ∧ t = "hg19").
Proof.
  destruct (decide (valid_assemblies s t)) as [Hv|Hn].
  - right. by apply assemblies_cases.
  - left. by apply convert_bigwig_invalid.
Qed.

Lemma resource_file url f : (url, f) ∈ resources → f ∈ resources.*2.
Proof. intros H. apply list_elem_of_fmap. by exists (url, f). Qed.

Ltac only_finish :=
  first
    [ done
    | left; by eapply resource_file
    | right; by split
    | apply (bool_decide_unpack _); by vm_compute ].

Lemma only_files_convert_bigwig i o s t c :
  only (files_ok c) (convert_bigwig i o s t c).
Proof.
  destruct (convert_bigwig_cases i o s t c) as [[msg ->]|[[-> ->]|[-> ->]]];
    [constructor| |];
    unfold convert_bigwig, print_progress, download_resources, adjust_overlaps;
    repeat only_step; unfold files_ok; only_finish.
Qed.

(** X13: the files the driver touches itself, in every world and for all
    arguments.  It tests only the resources and, when cleaning, the
    intermediate files; it makes only the three tools executable (mode
    0o755); it reads only the sizes table of an assembly, [output.bedGraph]
    and [sorted_output.bedGraph]; it writes only [filtered_output.bedGraph]
    and [adjusted_output.bedGraph]; it removes only intermediate files, and
    none unless [clean_temp] is set.  The input file and the output file
    are touched by the external tools alone. *)
Theorem driver_touches_only_its_files (w : world)
    (input_file output_file source_assembly target_assembly : string)
    (clean_temp : bool) :
  Forall (files_ok clean_temp)
    (run w (convert_bigwig input_file output_file source_assembly
              target_assembly clean_temp) []).1.
Proof.
  destruct (run_only _ _ (only_files_convert_bigwig input_file output_file
              source_assembly target_assembly clean_temp) w [])
    as (t & -> & Ht).
  done.
Qed.

Lemma process_ok_stage i o s t argv :
  chain_file s t ∈ resources.*2 → chrom_sizes_file t ∈ resources.*2 →
  Run argv ∈ [decode i; lift (chain_file s t); bedclip (chrom_sizes_file t);
              encode (chrom_sizes_file t) o] →
  process_ok i o (Run argv).
Proof. intros ? ? ?. right. right. by exists (chain_file s t), (chrom_sizes_file t). Qed.

Ltac process_finish s t :=
  first
    [ done
    | left; by eauto
    | right; left; done
    | apply (process_ok_stage _ _ s t);
      [ apply (bool_decide_unpack _); by vm_compute
      | apply (bool_decide_unpack _); by vm_compute
      | solve [ repeat first [ by left | right ] ] ] ].

Lemma only_processes_convert_bigwig i o s t c :
  only (process_ok i o) (convert_bigwig i o s t c).
Proof.
  destruct (convert_bigwig_cases i o s t c) as [[msg ->]|[[-> ->]|[-> ->]]];
    [constructor| |];
    unfold convert_bigwig, print_progress, download_resources, adjust_overlaps;
    repeat only_step.
  all: first [process_finish "hg19" "hg38" | process_finish "hg38" "hg19"].
Qed.

(** X14: the processes the driver starts, in every world and for all
    arguments: [wget] with the URL of one of the seven resources,
    [pip install CrossMap], the four tools with the arguments of their
    stage, and the [sort] command line.  The chain file handed to CrossMap
    and the sizes file handed to bedClip and bedGraphToBigWig are always
    among the files [download_resources] fetches. *)
Theorem driver_starts_only_its_tools (w : world)
    (input_file output_file source_assembly target_assembly : string)
    (clean_temp : bool) :
  Forall (process_ok input_file output_file)
    (run w (convert_bigwig input_file output_file source_assembly
              target_assembly clean_temp) []).1.
Proof.
  destruct (run_only _ _ (only_processes_convert_bigwig input_file output_file
              source_assembly target_assembly clean_temp) w [])
    as (t & -> & Ht).
  done.
Qed.

(** *** Downloads and removals are guarded *)

Lemma always_run {A} (w : world) Q (p : prog A) hist :
  always w Q p hist →
  ∀ pre a post, (run w p hist).1 = pre ++ a :: post →
    (length hist ≤ length pre)%nat → Q pre a.
Proof.
  revert hist. induction p as [x|e|a' k IH]; intros hist Hal pre a post Ht Hlen;
    simpl in *.
  - apply (f_equal length) in Ht. rewrite length_app in Ht. simpl in Ht. lia.
  - apply (f_equal length) in Ht. rewrite length_app in Ht. simpl in Ht. lia.
  - destruct Hal as [HQ Hal].
    assert (∀ t, hist ++ a' :: t = pre ++ a :: post →
              length hist = length pre → hist = pre ∧ a' = a) as Hsplit.
    { intros t Heq Hl. by apply app_inj_1 in Heq as [-> [= -> _]]. }
    destruct (w hist a') as [r|e'].
    + destruct (decide (length (hist ++ [a']) ≤ length pre)%nat) as [Hle|Hgt].
      { by apply (IH r (hist ++ [a']) Hal pre a post). }
      rewrite length_app in Hgt. simpl in Hgt.
      destruct (run_extends w (k r) (hist ++ [a'])) as [t Ht'].
      rewrite Ht', <-app_assoc in Ht. simpl in Ht.
      by destruct (Hsplit t Ht ltac:(lia)) as [<- <-].
    + simpl in Ht.
      assert (length hist = length pre) as Hl.
      { apply (f_equal length) in Ht. rewrite !length_app in Ht. simpl in Ht. lia. }
      by destruct (Hsplit [] Ht Hl) as [<- <-].
Qed.

Lemma always_bind {A B} (w : world) Q (p : prog A) (f : A → prog B) hist :
  always w Q p hist →
  (∀ t x, run w p hist = (t, Returned x) → always w Q (f x) t) →
  always w Q (p ≫= f) hist.
Proof.
  revert hist. induction p as [x|e|a k IH]; intros hist Hp Hf; simpl in *.
  - by apply Hf.
  - done.
  - destruct Hp as [HQ Hp]. split; [done|].
    destruct (w hist a) as [r|e]; [|done]. by apply IH.
Qed.

Lemma safe_bind {A B} (w : world) Q (p : prog A) (f : A → prog B) :
  safe w Q p → (∀ x, safe w Q (f x)) → safe w Q (p ≫= f).
Proof. intros Hp Hf hist. apply always_bind; [apply Hp|]. intros t x _. apply Hf. Qed.

Lemma safe_call (w : world) Q (a : action) :
  (∀ hist, Q hist a) → safe w Q (call a).
Proof. intros HQ hist. simpl. split; [done|]. by destruct (w hist a). Qed.

Lemma safe_for {X} (w : world) Q (xs : list X) (f : X → prog unit) :
  (∀ x, x ∈ xs → safe w Q (f x)) → safe w Q (for_ xs f).
Proof.
  induction xs as [|x xs IH]; intros Hf; [done|]. simpl.
  apply safe_bind; [apply Hf; by left|].
  intros _. apply IH. intros y Hy. apply Hf. by right.
Qed.

Lemma safe_reraise (w : world) Q err : safe w Q (reraise err).
Proof. by destruct err. Qed.

Lemma safe_download (w : world) url filename :
  (url, filename) ∈ resources →
  safe w (checked_first w)
    (present ← call (PathExists filename);
     if negb present then call (Run ["wget"; url]) ;; Ret () else Ret ()).
Proof.
  intros Hin hist. simpl. split; [done|].
  destruct (w hist (PathExists filename)) as [[|]|e] eqn:Hw; simpl; [done| |done].
  split; [|by destruct (w _ (Run _))].
  intros url' [= <-]. by exists hist, filename.
Qed.

Lemma safe_remove (w : world) file :
  safe w (checked_first w)
    (present ← call (PathExists file);
     if present : bool then call (Remove file) else Ret ()).
Proof.
  intros hist. simpl. split; [done|].
  destruct (w hist (PathExists file)) as [[|]|e] eqn:Hw; simpl; [|done..].
  split; [|by destruct (w _ (Remove _))]. by exists hist.
Qed.

Ltac safe_step :=
  match goal with
  | |- safe _ _ (call ?a) => apply (safe_call _ _ a)
  | |- safe _ _ (for_ resources _) =>
      apply safe_for; intros [? ?] ?; by apply safe_download
  | |- safe _ _ (for_ temporaries _) =>
      apply safe_for; intros ? ?; by apply safe_remove
  | |- safe _ _ (_ ≫= _) => apply safe_bind
  | |- safe _ _ (for_ _ _) => apply safe_for
  | |- safe _ _ (reraise _) => apply safe_reraise
  | |- safe _ _ (Ret _) => done
  | |- safe _ _ (Raise _) => done
  | |- safe _ _ (match ?x with _ => _ end) => destruct x
  | |- safe _ _ (let '(_, _) := ?x in _) => destruct x
  | |- ∀ _, _ => intros
  end.

Lemma safe_convert_bigwig w i o s t c :
  safe w (checked_first w) (convert_bigwig i o s t c).
Proof.
  unfold convert_bigwig, print_progress, download_resources, adjust_overlaps.
  repeat safe_step; try done; by intros ? [=].
Qed.

(** X15: in every run of the driver a download is made only for a file
    that the test just before it found missing, with the URL listed for
    that file, and a file is removed only when the test just before it
    found it present.  A resource that is there is never fetched again and
    no removal is tried on a file that is not there. *)
Theorem downloads_and_removals_are_guarded (w : world)
    (input_file output_file source_assembly target_assembly : string)
    (clean_temp : bool) (pre post : list action) (a : action) :
  (run w (convert_bigwig input_file output_file source_assembly
            target_assembly clean_temp) []).1 = pre ++ a :: post →
  match a with
  | Run argv =>
      ∀ url, argv = ["wget"; url] →
        ∃ pre' f, pre = pre' ++ [PathExists f] ∧ (url, f) ∈ resources
                  ∧ w pre' (PathExists f) = Returned false
  | Remove f =>
      ∃ pre', pre = pre' ++ [PathExists f]
              ∧ w pre' (PathExists f) = Returned true
  | _ => True
  end.
Proof.
  intros Ht.
  apply (always_run w (checked_first w) _ [] (safe_convert_bigwig w _ _ _ _ _ [])
           pre a post Ht).
  simpl. lia.
Qed.

Lemma downloads_and_removals_are_guarded_witness :
  (run (fresh_world []) (convert_bigwig "in.bw" "out.bw" "hg19" "hg38" true) []).1
  = take 7 (run (fresh_world [])
              (convert_bigwig "in.bw" "out.bw" "hg19" "hg38" true) []).1
    ++ Run ["wget"; "http://hgdownload.soe.ucsc.edu/admin/exe/linux.x86_64/bigWigToBedGraph"]
    :: drop 8 (run (fresh_world [])
                 (convert_bigwig "in.bw" "out.bw" "hg19" "hg38" true) []).1
  ∧ ∀ url,
      ["wget"; "http://hgdownload.soe.ucsc.edu/admin/exe/linux.x86_64/bigWigToBedGraph"]
      = ["wget"; url] →
      ∃ pre' f,
        take 7 (run (fresh_world [])
                  (convert_bigwig "in.bw" "out.bw" "hg19" "hg38" true) []).1
        = pre' ++ [PathExists f] ∧ (url, f) ∈ resources
        ∧ fresh_world [] pre' (PathExists f) = Returned false.
Proof.
  assert ((run (fresh_world [])
             (convert_bigwig "in.bw" "out.bw" "hg19" "hg38" true) []).1
          = take 7 (run (fresh_world [])
                      (convert_bigwig "in.bw" "out.bw" "hg19" "hg38" true) []).1
            ++ Run ["wget"; "http://hgdownload.soe.ucsc.edu/admin/exe/linux.x86_64/bigWigToBedGraph"]
            :: drop 8 (run (fresh_world [])
                         (convert_bigwig "in.bw" "out.bw" "hg19" "hg38" true) []).1)
    as Ht by (by vm_compute).
  split; [exact Ht|].
  exact (downloads_and_removals_are_guarded (fresh_world []) "in.bw" "out.bw"
           "hg19" "hg38" true _ _ _ Ht).
Defined.

(** *** The order of the pipeline *)

Lemma run_added {A} (w : world) (p : prog A) hist :
  (run w p hist).1 = hist ++ added w p hist.
Proof.
  unfold added. destruct (run_extends w p hist) as [t ->].
  by rewrite drop_app_length.
Qed.

Lemma added_bind {A B} (w : world) (p : prog A) (f : A → prog B) hist :
  added w (p ≫= f) hist =
  added w p hist ++
  match run w p hist with
  | (t, Returned x) => added w (f x) t
  | (_, Raised _) => []
  end.
Proof.
  unfold added at 1. rewrite run_bind.
  pose proof (run_added w p hist) as Hp.
  destruct (run w p hist) as [t [x|e]]; simpl in *.
  - rewrite run_added, Hp, <-app_assoc. by rewrite drop_app_length.
  - rewrite Hp. by rewrite drop_app_length, app_nil_r.
Qed.

Lemma outline_app t1 t2 : outline (t1 ++ t2) = outline t1 ++ outline t2.
Proof. unfold outline, milestones. by rewrite List.filter_app, fmap_app. Qed.

Lemma outline_silent t : Forall silent t → outline t = [].
Proof.
  induction 1 as [|a t Ha _ IH]; [done|]. unfold outline, milestones in *.
  simpl. unfold silent in Ha. by rewrite Ha.
Qed.

Lemma added_only {A} P (w : world) (p : prog A) hist :
  only P p → Forall P (added w p hist).
Proof.
  intros Hp. destruct (run_only P p Hp w hist) as (t & Ht & Hall).
  pose proof (run_added w p hist) as Ha. rewrite Ht in Ha.
  by apply app_inv_head in Ha as <-.
Qed.

Lemma leads_bind {A B} (w : world) (p : prog A) (f : A → prog B) hist ms1 ms2 :
  leads w p hist ms1 →
  (∀ t x, run w p hist = (t, Returned x) → leads w (f x) t ms2) →
  leads w (p ≫= f) hist (ms1 ++ ms2).
Proof.
  intros [Hpre Hall] Hf. unfold leads. rewrite added_bind, outline_app, run_bind.
  destruct (run w p hist) as [t [x|e]] eqn:Hrun; simpl in *.
  - destruct (Hf t x eq_refl) as [Hpre' Hall'].
    rewrite (Hall x eq_refl). split; [by apply prefix_app|].
    intros y Hy. by rewrite (Hall' y Hy).
  - split; [|done]. rewrite app_nil_r. by apply prefix_app_r.
Qed.

Lemma leads_skip {A B} (w : world) (p : prog A) (f : A → prog B) hist ms :
  only silent p → (∀ t x, leads w (f x) t ms) → leads w (p ≫= f) hist ms.
Proof.
  intros Hp Hf. apply (leads_bind w p f hist [] ms); [|by intros].
  unfold leads.
  by rewrite (outline_silent (added w p hist)) by by apply added_only.
Qed.

Lemma added_call (w : world) (a : action) hist : added w (call a) hist = [a].
Proof.
  unfold added. simpl. destruct (w hist a); simpl; by rewrite drop_app_length.
Qed.

Lemma leads_mark {B} (w : world) (a : action) (f : resp a → prog B) hist ms :
  is_milestone a = true → (∀ t x, leads w (f x) t ms) →
  leads w (call a ≫= f) hist (unwritten a :: ms).
Proof.
  intros Ha Hf. apply (leads_bind w (call a) f hist [unwritten a] ms); [|by intros].
  unfold leads. rewrite added_call. unfold outline, milestones. simpl.
  by rewrite Ha.
Qed.

Lemma leads_end {A} (w : world) (p : prog A) hist :
  only silent p → leads w p hist [].
Proof.
  intros Hp. unfold leads.
  by rewrite (outline_silent (added w p hist)) by by apply added_only.
Qed.

Lemma leads_raise {A} (w : world) e hist ms : leads w (@Raise A e) hist ms.
Proof.
  unfold leads, added. simpl. rewrite drop_all. split; [apply prefix_nil|done].
Qed.

Ltac silent_solve :=
  unfold print_progress, download_resources; repeat only_step; done.

Ltac leads_step :=
  match goal with
  | |- leads _ (Raise _) _ _ => apply leads_raise
  | |- leads _ (call ?a ≫= _) _ (_ :: _) =>
      apply (leads_mark _ a); [done|intros ? ?]
  | |- leads _ (_ ≫= _) _ _ => apply leads_skip; [silent_solve|intros ? ?]
  | |- leads _ (match ?x with _ => _ end) _ _ => destruct x
  | |- leads _ (let '(_, _) := ?x in _) _ _ => destruct x
  end.

Lemma leads_adjust_overlaps w input_file output_file hist :
  leads w (adjust_overlaps input_file output_file) hist [WriteLines output_file []].
Proof.
  unfold adjust_overlaps. repeat leads_step.
  apply leads_end. apply only_reraise.
Qed.

Lemma leads_convert_bigwig w i o s t c :
  valid_assemblies s t →
  leads w (convert_bigwig i o s t c) [] (pipeline i o s t [] []).
Proof.
  intros (Hs & Ht & Hne). unfold convert_bigwig.
  rewrite (bool_decide_eq_false_2 (s ∉ assemblies)) by (by intros []).
  rewrite (bool_decide_eq_false_2 (t ∉ assemblies)) by (by intros []).
  rewrite (bool_decide_eq_false_2 (s = t)) by done.
  simpl orb. cbv iota. unfold pipeline.
  repeat leads_step.
  apply (leads_bind _ _ _ _ [WriteLines "adjusted_output.bedGraph" []]
           [encode (chrom_sizes_file t) o]);
    [apply leads_adjust_overlaps|intros ? ? _].
  repeat leads_step.
  apply leads_end. destruct c; silent_solve.
Qed.

(** X16: the order of the pipeline.  For a valid pair of assemblies, in
    every world, the stages started and the files written by the driver
    itself come in the order decode, lift, write of the filtered file,
    clip, sort, write of the repaired file, encode: each run passes a
    prefix of this sequence, and a run that returns passes all of it.  The
    chain file is [<source>To<Target>.over.chain.gz], the sizes file
    [<target>.chrom.sizes]. *)
Theorem pipeline_order (w : world)
    (input_file output_file source_assembly target_assembly : string)
    (clean_temp : bool) :
  valid_assemblies source_assembly target_assembly →
  outline (run w (convert_bigwig input_file output_file source_assembly
                    target_assembly clean_temp) []).1
    `prefix_of` pipeline input_file output_file source_assembly
                  target_assembly [] []
  ∧ ((run w (convert_bigwig input_file output_file source_assembly
               target_assembly clean_temp) []).2 = Returned () →
     outline (run w (convert_bigwig input_file output_file source_assembly
                       target_assembly clean_temp) []).1
     = pipeline input_file output_file source_assembly target_assembly [] []).
Proof.
  intros Hv.
  destruct (leads_convert_bigwig w input_file output_file source_assembly
              target_assembly clean_temp Hv) as [Hpre Hall].
  unfold added in *. simpl in *. rewrite drop_0 in *.
  split; [done|apply Hall].
Qed.

Lemma pipeline_order_witness :
  valid_assemblies "hg38" "hg19"
  ∧ (outline (run failing_tools_world
                (convert_bigwig "in.bw" "out.bw" "hg38" "hg19" false) []).1
       `prefix_of` pipeline "in.bw" "out.bw" "hg38" "hg19" [] []
     ∧ ((run failing_tools_world
           (convert_bigwig "in.bw" "out.bw" "hg38" "hg19" false) []).2
        = Returned () →
        outline (run failing_tools_world
                   (convert_bigwig "in.bw" "out.bw" "hg38" "hg19" false) []).1
        = pipeline "in.bw" "out.bw" "hg38" "hg19" [] [])).
Proof.
  assert (valid_assemblies "hg38" "hg19") as Hv
    by (apply (bool_decide_unpack _); by vm_compute).
  split; [exact Hv|].
  exact (pipeline_order failing_tools_world "in.bw" "out.bw" "hg38" "hg19"
           false Hv).
Defined.

(** *** When the driver completes *)

Lemma returns_bind {A B} (w : world) (p : prog A) (f : A → prog B) :
  returns w p → (∀ x, returns w (f x)) → returns w (p ≫= f).
Proof.
  intros Hp Hf hist. rewrite run_bind.
  destruct (Hp hist) as (t & x & ->). apply Hf.
Qed.

Lemma returns_call (w : world) (a : action) :
  (∀ hist, ¬ raised (w hist a)) → returns w (call a).
Proof.
  intros Hw hist. simpl. specialize (Hw hist).
  destruct (w hist a) as [r|e]; [by eexists _, _|by destruct Hw].
Qed.

Lemma returns_call_bind {B} (w : world) (a : action) (f : resp a → prog B) :
  (∀ hist, ¬ raised (w hist a)) →
  (∀ r, (∃ hist, w hist a = Returned r) → returns w (f r)) →
  returns w (call a ≫= f).
Proof.
  intros Hw Hf hist. simpl. specialize (Hw hist).
  destruct (w hist a) as [r|e] eqn:Hr; [|by destruct Hw].
  apply Hf. by exists hist.
Qed.

Lemma returns_for {X} (w : world) (xs : list X) (f : X → prog unit) :
  (∀ x, returns w (f x)) → returns w (for_ xs f).
Proof.
  intros Hf. induction xs as [|x xs IH]; [intros hist; by eexists _, _|].
  simpl. by apply returns_bind.
Qed.

Lemma returns_ret {A} (w : world) (x : A) : returns w (Ret x).
Proof. intros hist. by eexists _, _. Qed.

Ltac returns_step Hw :=
  match goal with
  | |- returns _ (call ?a) => apply (returns_call _ a); intros ?; apply Hw
  | |- returns _ (_ ≫= _) => apply returns_bind
  | |- returns _ (for_ _ _) => apply returns_for
  | |- returns _ (Ret _) => apply returns_ret
  | |- returns _ (reraise None) => apply (returns_ret _ ())
  | |- returns _ (if ?x then _ else _) => destruct x
  | |- returns _ (let '(_, _) := ?x in _) => destruct x
  | |- ∀ _, _ => intros
  end.

(** Step over the statements up to the next read of a file. *)
Ltac returns_upto Hw :=
  repeat
    lazymatch goal with
    | |- returns _ (call (ReadLines _) ≫= _) => fail
    | |- returns _ (adjust_overlaps _ _ ≫= _) => fail
    | |- returns _ (_ ≫= _) =>
        apply returns_bind; [repeat returns_step Hw|intros _]
    end.

Lemma returns_adjust_overlaps w output_file :
  cooperative w →
  returns w (adjust_overlaps "sorted_output.bedGraph" output_file).
Proof.
  intros [Hw Hread]. unfold adjust_overlaps.
  apply returns_call_bind; [intros ?; apply Hw|].
  intros lines [hist Hlines].
  destruct (Hread _ _ _ Hlines) as [_ Hgood]. specialize (Hgood eq_refl).
  destruct (well_formed_lines_parse lines Hgood) as [ivs Hp].
  rewrite (adjust_loop_parsed initial lines ivs Hp). cbv iota beta.
  repeat returns_step Hw.
Qed.

Lemma returns_convert_bigwig w i o s t c :
  valid_assemblies s t → cooperative w →
  returns w (convert_bigwig i o s t c).
Proof.
  intros (Hs & Ht & Hne) Hco. pose proof Hco as [Hw Hread].
  unfold convert_bigwig.
  rewrite (bool_decide_eq_false_2 (s ∉ assemblies)) by (by intros []).
  rewrite (bool_decide_eq_false_2 (t ∉ assemblies)) by (by intros []).
  rewrite (bool_decide_eq_false_2 (s = t)) by done.
  simpl orb. cbv iota. unfold print_progress, download_resources.
  returns_upto Hw.
  apply returns_call_bind; [intros ?; apply Hw|].
  intros sizes [hist Hsizes]. destruct (Hread _ _ _ Hsizes) as [Hnb _].
  destruct (load_chroms_clean sizes ∅ Hnb) as (S & -> & _).
  returns_upto Hw.
  apply returns_call_bind; [intros ?; apply Hw|].
  intros lifted [hist' Hlifted]. destruct (Hread _ _ _ Hlifted) as [Hnb' _].
  rewrite (filter_loop_clean S lifted Hnb'). cbv iota beta.
  returns_upto Hw.
  apply returns_bind; [by apply returns_adjust_overlaps|intros _].
  repeat returns_step Hw.
Qed.

(** X17: when the driver completes.  For a valid pair of assemblies, in a
    world where no action raises, every file read has a field on each line
    and the sorted file has four fields with integer start and end on each
    line, the driver returns normally, whatever the exit statuses of the
    tools are, and it has then passed the whole pipeline in order. *)
Theorem convert_bigwig_completes (w : world)
    (input_file output_file source_assembly target_assembly : string)
    (clean_temp : bool) :
  valid_assemblies source_assembly target_assembly → cooperative w →
  (run w (convert_bigwig input_file output_file source_assembly
            target_assembly clean_temp) []).2 = Returned ()
  ∧ outline (run w (convert_bigwig input_file output_file source_assembly
                      target_assembly clean_temp) []).1
    = pipeline input_file output_file source_assembly target_assembly [] [].
Proof.
  intros Hv Hco.
  destruct (returns_convert_bigwig w input_file output_file source_assembly
              target_assembly clean_temp Hv Hco []) as (t & [] & Hrun).
  destruct (leads_convert_bigwig w input_file output_file source_assembly
              target_assembly clean_temp Hv) as [_ Hall].
  unfold added in Hall. simpl in Hall. rewrite drop_0 in Hall.
  split; [by rewrite Hrun|]. apply (Hall ()). by rewrite Hrun.
Qed.

Lemma cooperative_failing_tools_world : cooperative failing_tools_world.
Proof.
  split.
  - intros hist a. destruct a; simpl; by intros ?.
  - intros hist f lines [= <-]. split.
    + apply (bool_decide_unpack _). by vm_compute.
    + intros _. constructor; [|constructor].
      intros Hbad. apply parse_line_malformed in Hbad as [why Hwhy].
      by vm_compute in Hwhy.
Qed.

Lemma convert_bigwig_completes_witness :
  valid_assemblies "hg19" "hg38" ∧ cooperative failing_tools_world
  ∧ (run failing_tools_world
       (convert_bigwig "in.bw" "out.bw" "hg19" "hg38" true) []).2 = Returned ()
  ∧ outline (run failing_tools_world
               (convert_bigwig "in.bw" "out.bw" "hg19" "hg38" true) []).1
    = pipeline "in.bw" "out.bw" "hg19" "hg38" [] [].
Proof.
  assert (valid_assemblies "hg19" "hg38") as Hv
    by (apply (bool_decide_unpack _); by vm_compute).
  split_and!; [exact Hv|exact cooperative_failing_tools_world|..];
    apply (convert_bigwig_completes failing_tools_world "in.bw" "out.bw"
             "hg19" "hg38" true Hv cooperative_failing_tools_world).
Defined.

End PipelineFacts.
